(** * bmod: the Mach-O container decoder (src/formats/MachO.cpp)

    A shallow embedding of [MachO::detect], [MachO::parse] and
    [MachO::parseHeader] together with the properties of the decoder that
    the specification states.

    Conventions.
    - A file is the list of its bytes; fixed-width unsigned integers are
      values of [Z] with the C++ wrap-around written out ([wrap32],
      [wrap64], [toInt32]).
    - A [QString] built from raw bytes is modelled by its UTF-8 code
      units (a [string]); the conversion stops at the first zero byte,
      as Qt 5's [QString::fromUtf8(const QByteArray &)] does.
    - The decoder runs in a small state-and-error monad over the byte
      reader, whose outcomes are the ways in which the C++ code can leave
      a call: normal return, [return false], [exit(0)], or an access
      outside a buffer. *)

From Stdlib Require Import ZArith List Lia Bool String Ascii.
From Stdlib Require Import Strings.Byte.
Import ListNotations.
Local Open Scope Z_scope.

(** ** Machine arithmetic *)

Definition wrap32 (z : Z) : Z := z mod 2 ^ 32.
Definition wrap64 (z : Z) : Z := z mod 2 ^ 64.

(** [quint32 + quint32] and [quint64 + quint64]. *)
Definition add32 (a b : Z) : Z := wrap32 (a + b).
Definition add64 (a b : Z) : Z := wrap64 (a + b).

(** Conversion of an unsigned 32-bit value to [int]. *)
Definition toInt32 (z : Z) : Z :=
  let w := wrap32 z in if w <? 2 ^ 31 then w else w - 2 ^ 32.

(** Conversion of an unsigned 64-bit value to [qint64]. *)
Definition toInt64 (z : Z) : Z :=
  let w := wrap64 z in if w <? 2 ^ 63 then w else w - 2 ^ 64.

(** ** Byte buffers *)

Definition byteVal (b : byte) : Z := Z.of_N (Byte.to_N b).

(** The first [n] bytes of [l] (all of [l] when it is shorter). *)
Fixpoint takeZ (n : Z) (l : list byte) : list byte :=
  match l with
  | [] => []
  | b :: l' => if n <=? 0 then [] else b :: takeZ (n - 1) l'
  end.

(** [l] without its first [n] bytes. *)
Fixpoint dropZ (n : Z) (l : list byte) : list byte :=
  match l with
  | [] => []
  | b :: l' => if n <=? 0 then l else dropZ (n - 1) l'
  end.

Definition lenZ (l : list byte) : Z := Z.of_nat (List.length l).

(** The bytes of [l] up to, and without, the first zero byte. *)
Fixpoint untilNul (l : list byte) : list byte :=
  match l with
  | [] => []
  | b :: l' => if Byte.eqb b x00 then [] else b :: untilNul l'
  end.

(** [QString(const QByteArray &)] and [QString::fromUtf8(const QByteArray &)]. *)
Definition fromUtf8 (a : list byte) : string :=
  string_of_list_byte (untilNul a).

(** Little-endian value of a byte sequence: byte [i] has weight [2^(8*i)]. *)
Fixpoint leValue (l : list byte) : Z :=
  match l with
  | [] => 0
  | b :: l' => byteVal b + 256 * leValue l'
  end.

(** ** The byte reader *)

(** Modelled from the spec: Reader.h and Reader.cpp are not among the
    sources. The reader is "a positionable byte source with switchable
    endianness and fixed-width integer/raw reads; every read can fail
    (truncated input)". The device under it is the [QFile] that [detect]
    and [parse] open. *)
Module Reader.

(** Modelled from the spec: the state of the reader, that is, the bytes of
    the device, the position in it and the byte order in force. *)
Record t : Type := mk {
  dev : list byte;
  pos : Z;
  littleEndian : bool
}.

(** Modelled from the spec: [Reader r(f)]. The reader starts at position 0
    and little-endian, the byte order under which the magic constants of
    [detect] carry the tags the source gives them. *)
Definition open (file : list byte) : t := mk file 0 true.

(** Modelled from the spec: [setLittleEndian], the "switchable
    endianness". *)
Definition setLittleEndian (le : bool) (r : t) : t :=
  mk (dev r) (pos r) le.

(** Modelled from the spec: [seek] of the "positionable byte source".
    Seeking past the end of a file is allowed and leaves nothing to
    read. *)
Definition seek (p : Z) (r : t) : t :=
  mk (dev r) p (littleEndian r).

(** Modelled from the spec: [read], the "raw read". It returns the bytes
    that are available, at most [max] of them (none for a negative [max]),
    and moves the position past them. *)
Definition read (max : Z) (r : t) : list byte * t :=
  let buf := takeZ max (dropZ (pos r) (dev r)) in
  (buf, mk (dev r) (pos r + lenZ buf) (littleEndian r)).

(** Modelled from the spec: the value of [buf] in the given byte order,
    for the "endian-aware fixed-width reads". *)
Definition decode (le : bool) (buf : list byte) : Z :=
  if le then leValue buf else leValue (rev buf).

(** Modelled from the spec: [getUInt<T>] for a [T] of [num] bytes, a
    fixed-width read that "can fail (truncated input)": the value, or
    [None] when the [ok] flag comes back false because fewer than [num]
    bytes were left; the position is then at the end of the stream. *)
Definition getUInt (num : Z) (r : t) : option Z * t :=
  let (buf, r') := read num r in
  if lenZ buf <? num then (None, r')
  else (Some (decode (littleEndian r) buf), r').

End Reader.

(** The value of the [num] bytes at position [p] of a file. *)
Definition uintAt (num : Z) (le : bool) (file : list byte) (p : Z) : Z :=
  Reader.decode le (takeZ num (dropZ p file)).

(** ** The decoder monad *)

Inductive outcome (A : Type) : Type :=
| Ok (a : A) (r : Reader.t)   (* the code runs on *)
| Failed                      (* [return false] *)
| Exited                      (* [exit(0)] *)
| Undefined.                  (* a read outside a buffer *)

Arguments Ok {A} a r.
Arguments Failed {A}.
Arguments Exited {A}.
Arguments Undefined {A}.

Definition M (A : Type) : Type := Reader.t -> outcome A.

Definition ret {A} (a : A) : M A := fun r => Ok a r.

Definition bind {A B} (m : M A) (k : A -> M B) : M B :=
  fun r =>
    match m r with
    | Ok a r' => k a r'
    | Failed => Failed
    | Exited => Exited
    | Undefined => Undefined
    end.

Declare Scope decoder_scope.
Delimit Scope decoder_scope with decoder.
Notation "x <- m ;; k" := (bind m (fun x => k))
  (at level 61, m at next level, right associativity) : decoder_scope.
Notation "m ;;; k" := (bind m (fun _ => k))
  (at level 61, right associativity) : decoder_scope.
Local Open Scope decoder_scope.

(** [x = r.getUIntN(&ok); if (!ok) return false;] *)
Definition checked (num : Z) : M Z :=
  fun r =>
    match Reader.getUInt num r with
    | (Some v, r') => Ok v r'
    | (None, _) => Failed
    end.

Definition getUChar : M Z := checked 1.
Definition getUInt16 : M Z := checked 2.
Definition getUInt32 : M Z := checked 4.
Definition getUInt64 : M Z := checked 8.

(** [r.getUInt32();] with the [ok] flag left out: a short read goes
    unnoticed. *)
Definition skipUInt32 : M unit :=
  fun r => Ok tt (snd (Reader.getUInt 4 r)).

(** [r.read(max)] *)
Definition readBytes (max : Z) : M (list byte) :=
  fun r => let (buf, r') := Reader.read max r in Ok buf r'.

Definition seek (p : Z) : M unit := fun r => Ok tt (Reader.seek p r).
Definition setLittleEndian (le : bool) : M unit :=
  fun r => Ok tt (Reader.setLittleEndian le r).
Definition pos : M Z := fun r => Ok (Reader.pos r) r.
Definition exit {A} : M A := fun _ => Exited.

(** A field that is 32 bits wide in a 32-bit slice and 64 bits wide
    otherwise. *)
Definition getWord (systemBits : Z) : M Z :=
  if systemBits =? 32 then getUInt32 else getUInt64.

(** [for (i = 0; i < n; i++) st = body(st)] *)
Fixpoint repeatM {S} (n : nat) (body : S -> M S) (st : S) : M S :=
  match n with
  | O => ret st
  | Datatypes.S n' => st' <- body st ;; repeatM n' body st'
  end.

(** ** detect *)

Definition isMachMagic (magic : Z) : bool :=
  (magic =? 0xFEEDFACE) || (magic =? 0xFEEDFACF) ||
  (magic =? 0xECAFDEEF) || (magic =? 0xFCAFDEEF) ||
  (magic =? 0xCAFEBABE) || (magic =? 0xBEBAFECA).

(** [MachO::detect]; [None] is a file that cannot be opened. *)
Definition detect (file : option (list byte)) : bool :=
  match file with
  | None => false
  | Some f =>
      match Reader.getUInt 4 (Reader.open f) with
      | (Some magic, _) => isMachMagic magic
      | (None, _) => false
      end
  end.

(** ** The data model

    Section.h, SymbolEntry.h, SymbolTable.h, BinaryObject.h, CpuType.h and
    FileType.h are not among the sources; the types below follow the data
    model of the specification and the uses [parseHeader] makes of
    them. *)

(** Modelled from the spec: the section types, "one of a fixed
    enumeration: Program/Text, Symbol-Stubs, C-String, String-Table,
    Symbol-Table, Dynamic-Symbol-Table, Function-Starts, Code-Signature",
    under the names [parseHeader] uses. *)
Module SectionType.
Inductive t : Set :=
| Text | SymbolStubs | Symbols | DynSymbols
| CString | String | FuncStarts | CodeSig.

Definition eqb (a b : t) : bool :=
  match a, b with
  | Text, Text | SymbolStubs, SymbolStubs | Symbols, Symbols
  | DynSymbols, DynSymbols | CString, CString | String, String
  | FuncStarts, FuncStarts | CodeSig, CodeSig => true
  | _, _ => false
  end.
End SectionType.

(** Modelled from the spec: the "enumerated architecture family" and the
    "enumerated variant within family", one enumeration in the source,
    with the constructors [parseHeader] names. *)
Inductive CpuType : Set :=
| X86 | X86_64 | HPPA | ARM | SPARC | I860 | PowerPC | PowerPC_64
| I386 | I486 | I486_SX | Pentium | PentiumPro | PentiumII_M3
| PentiumII_M5 | Celeron | CeleronMobile | Pentium_3 | Pentium_3_M
| Pentium_3_Xeon | Pentium_M | Pentium_4 | Pentium_4_M | Itanium
| Itanium_2 | Xeon | Xeon_MP.

(** Modelled from the spec: the file type, "object, executable, core,
    preload, dylib, dynamic linker, bundle". *)
Inductive FileType : Set :=
| Object | Execute | Core | Preload | Dylib | Dylinker | Bundle.

(** Modelled from the spec: a [Section] is "a typed, named, addressed,
    sized byte range plus its materialized bytes once loaded", with the
    attributes "type, human-readable label, virtual address, size in
    bytes, file offset, materialized byte content". *)
Record Section : Type := mkSection {
  secType : SectionType.t;
  secName : string;
  secAddress : Z;
  secSize : Z;
  secOffset : Z;
  secData : list byte
}.

(** Modelled from the spec: [new Section(type, name, addr, size, offset)];
    the content is "empty until the load pass". *)
Definition newSection (ty : SectionType.t) (name : string)
    (addr size offset : Z) : Section :=
  mkSection ty name addr size offset [].

(** Modelled from the spec: [setData], which fills in the content. *)
Definition setData (d : list byte) (s : Section) : Section :=
  mkSection (secType s) (secName s) (secAddress s) (secSize s)
            (secOffset s) d.

(** Modelled from the spec: a [SymbolEntry] holds a "string-table index,
    resolved string, numeric value"; the index is the unsigned 32-bit
    value [parseHeader] constructs the entry with. *)
Record SymbolEntry : Type := mkSymbolEntry {
  symIndex : Z;
  symValue : Z;
  symString : string
}.

(** Modelled from the spec: [SymbolEntry(index, value)], without a name
    yet. *)
Definition newSymbolEntry (index value : Z) : SymbolEntry :=
  mkSymbolEntry index value EmptyString.

(** Modelled from the spec: [setString]. *)
Definition setString (s : string) (e : SymbolEntry) : SymbolEntry :=
  mkSymbolEntry (symIndex e) (symValue e) s.

(** Modelled from the spec: [setValue]. *)
Definition setValue (v : Z) (e : SymbolEntry) : SymbolEntry :=
  mkSymbolEntry (symIndex e) v (symString e).

(** Modelled from the spec: a [SymbolTable] is an "ordered collection of
    entries", in which "duplicates are legal and preserved". *)
Definition SymbolTable : Type := list SymbolEntry.

(** Modelled from the spec: a [BinaryObject] is "one decoded architecture
    slice: bit-width, endianness, CPU type/subtype, file type, its sections
    (by insertion order and by type), its symbol table, its dynamic symbol
    table". *)
Record BinaryObject : Type := mkBinaryObject {
  systemBits : Z;
  littleEndian : bool;
  cpuType : CpuType;
  cpuSubType : CpuType;
  fileType : FileType;
  sections : list Section;
  symbolTable : SymbolTable;
  dynSymbolTable : SymbolTable
}.

(** Modelled from the spec: [getSection(type)], the lookup "by type tag
    within a BinaryObject": the first section of that type, in insertion
    order, if there is one. *)
Definition getSection (ty : SectionType.t) (secs : list Section)
    : option Section :=
  find (fun s => SectionType.eqb (secType s) ty) secs.

(** ** parseHeader: the file header *)

(** Bit-width and byte order from the magic (lines 103-120). *)
Definition classifyMagic (magic : Z) : Z * bool :=
  if magic =? 0xFEEDFACE then (32, true)
  else if magic =? 0xFEEDFACF then (64, true)
  else if magic =? 0xECAFDEEF then (32, false)
  else if magic =? 0xFCAFDEEF then (64, false)
  else (32, true).

Definition cpuTypeOf (cputype : Z) : CpuType :=
  if cputype =? 7 then X86
  else if cputype =? 7 + 0x01000000 then X86_64
  else if cputype =? 11 then HPPA
  else if cputype =? 12 then ARM
  else if cputype =? 14 then SPARC
  else if cputype =? 15 then I860
  else if cputype =? 18 then PowerPC
  else if cputype =? 18 + 0x01000000 then PowerPC_64
  else X86.

Definition cpuSubTypeOf (cpusubtype : Z) : CpuType :=
  if cpusubtype =? 3 then I386
  else if cpusubtype =? 4 then I486
  else if cpusubtype =? 4 + Z.shiftl 8 4 then I486_SX
  else if cpusubtype =? 5 then Pentium
  else if cpusubtype =? 6 + Z.shiftl 1 4 then PentiumPro
  else if cpusubtype =? 6 + Z.shiftl 3 4 then PentiumII_M3
  else if cpusubtype =? 6 + Z.shiftl 5 4 then PentiumII_M5
  else if cpusubtype =? 7 + Z.shiftl 6 4 then Celeron
  else if cpusubtype =? 7 + Z.shiftl 7 4 then CeleronMobile
  else if cpusubtype =? 8 then Pentium_3
  else if cpusubtype =? 8 + Z.shiftl 1 4 then Pentium_3_M
  else if cpusubtype =? 8 + Z.shiftl 2 4 then Pentium_3_Xeon
  else if cpusubtype =? 9 then Pentium_M
  else if cpusubtype =? 10 then Pentium_4
  else if cpusubtype =? 10 + Z.shiftl 1 4 then Pentium_4_M
  else if cpusubtype =? 11 then Itanium
  else if cpusubtype =? 11 + Z.shiftl 1 4 then Itanium_2
  else if cpusubtype =? 12 then Xeon
  else if cpusubtype =? 12 + Z.shiftl 1 4 then Xeon_MP
  else I386.

Definition fileTypeOf (filetype : Z) : FileType :=
  if filetype =? 1 then Object
  else if filetype =? 2 then Execute
  else if filetype =? 4 then Core
  else if filetype =? 5 then Preload
  else if filetype =? 6 then Dylib
  else if filetype =? 7 then Dylinker
  else if filetype =? 8 then Bundle
  else Object.

(** What lines 96-271 of [parseHeader] leave behind: the attributes set on
    the binary object, and the number of load commands. *)
Record Header : Type := mkHeader {
  hSystemBits : Z;
  hLittleEndian : bool;
  hCpuType : CpuType;
  hCpuSubType : CpuType;
  hFileType : FileType;
  hNcmds : Z
}.

Definition readHeader (offset : Z) : M Header :=
  seek offset ;;;
  setLittleEndian true ;;;
  magic <- getUInt32 ;;
  let systemBits := fst (classifyMagic magic) in
  let littleEndian := snd (classifyMagic magic) in
  setLittleEndian littleEndian ;;;
  cputype <- getUInt32 ;;
  cpusubtype <- getUInt32 ;;
  filetype <- getUInt32 ;;
  ncmds <- getUInt32 ;;
  sizeofcmds <- getUInt32 ;;
  flags <- getUInt32 ;;
  (if systemBits =? 64 then skipUInt32 else ret tt) ;;;
  let cpusubtype :=
    if systemBits =? 64 then wrap32 (cpusubtype - 0x80000000)
    else cpusubtype in
  ret (mkHeader systemBits littleEndian (cpuTypeOf cputype)
                (cpuSubTypeOf cpusubtype) (fileTypeOf filetype) ncmds).

(** ** parseHeader: the load commands *)

(** The local variables of [parseHeader] that the command loop updates,
    with the sections registered in the binary object so far. *)
Record LoadState : Type := mkLoadState {
  lsSections : list Section;
  symoff : Z;
  symnum : Z;
  indirsymoff : Z;
  indirsymnum : Z
}.

Definition initLoadState : LoadState := mkLoadState [] 0 0 0 0.

(** [binaryObject->addSection(sec)] *)
Definition addSection (s : Section) (st : LoadState) : LoadState :=
  mkLoadState (lsSections st ++ [s]) (symoff st) (symnum st)
              (indirsymoff st) (indirsymnum st).

(** "Store needed sections" (lines 412-438). *)
Definition storeSection (offset : Z) (segname secname : string)
    (addr secsize secfileoff : Z) (st : LoadState) : LoadState :=
  if String.eqb segname "__TEXT" then
    if String.eqb secname "__text" then
      addSection (newSection SectionType.Text "Program"
                    addr secsize (add32 offset secfileoff)) st
    else if String.eqb secname "__symbol_stub"
            || String.eqb secname "__stubs" then
      addSection (newSection SectionType.SymbolStubs "Symbol Stubs"
                    addr secsize (add32 offset secfileoff)) st
    else if String.eqb secname "__cstring" then
      addSection (newSection SectionType.CString "C-Strings"
                    addr secsize (add32 offset secfileoff)) st
    else if String.eqb secname "__objc_methname" then
      addSection (newSection SectionType.CString "ObjC Method Names"
                    addr secsize (add32 offset secfileoff)) st
    else st
  else st.

(** One section record of a segment (lines 358-439). *)
Definition readSection (bits offset : Z) (st : LoadState) : M LoadState :=
  secname <- readBytes 16 ;;
  segname <- readBytes 16 ;;
  addr <- getWord bits ;;
  secsize <- getWord bits ;;
  secfileoff <- getUInt32 ;;
  getUInt32 ;;;                  (* alignment *)
  getUInt32 ;;;                  (* relocation entries: offset *)
  getUInt32 ;;;                  (* relocation entries: number *)
  getUInt32 ;;;                  (* flags *)
  skipUInt32 ;;;                 (* reserved *)
  skipUInt32 ;;;
  (if bits =? 64 then skipUInt32 else ret tt) ;;;
  ret (storeSection offset (fromUtf8 segname) (fromUtf8 secname)
                    addr secsize secfileoff st).

(** LC_SEGMENT, LC_SEGMENT_64 (lines 293-441). *)
Definition readSegment (bits offset : Z) (st : LoadState) : M LoadState :=
  readBytes 16 ;;;               (* name *)
  getWord bits ;;;               (* vmaddr *)
  getWord bits ;;;               (* vmsize *)
  getWord bits ;;;               (* fileoff *)
  getWord bits ;;;               (* filesize *)
  getUInt32 ;;;                  (* maximum protection *)
  getUInt32 ;;;                  (* initial protection *)
  nsects <- getUInt32 ;;
  getUInt32 ;;;                  (* flags *)
  repeatM (Z.to_nat nsects) (readSection bits offset) st.

(** LC_DYLD_INFO, LC_DYLD_INFO_ONLY (lines 446-484). *)
Definition readDyldInfo : M unit :=
  getUInt32 ;;; getUInt32 ;;;    (* rebase *)
  getUInt32 ;;; getUInt32 ;;;    (* binding *)
  getUInt32 ;;; getUInt32 ;;;    (* weak binding *)
  getUInt32 ;;; getUInt32 ;;;    (* lazy binding *)
  getUInt32 ;;; getUInt32 ;;;    (* export *)
  ret tt.

(** LC_SYMTAB (lines 489-508). *)
Definition readSymtab (offset : Z) (st : LoadState) : M LoadState :=
  symoff' <- getUInt32 ;;
  symnum' <- getUInt32 ;;
  stroff <- getUInt32 ;;
  strsize <- getUInt32 ;;
  ret (addSection (newSection SectionType.String "String Table"
                     stroff strsize (add32 offset stroff))
         (mkLoadState (lsSections st) symoff' symnum'
                      (indirsymoff st) (indirsymnum st))).

(** LC_DYSYMTAB (lines 513-583). *)
Definition readDysymtab (st : LoadState) : M LoadState :=
  getUInt32 ;;; getUInt32 ;;;    (* local symbols *)
  getUInt32 ;;; getUInt32 ;;;    (* externally defined symbols *)
  getUInt32 ;;; getUInt32 ;;;    (* undefined symbols *)
  getUInt32 ;;; getUInt32 ;;;    (* table of contents *)
  getUInt32 ;;; getUInt32 ;;;    (* module table *)
  getUInt32 ;;; getUInt32 ;;;    (* referenced symbol table *)
  indirsymoff' <- getUInt32 ;;
  indirsymnum' <- getUInt32 ;;
  getUInt32 ;;; getUInt32 ;;;    (* external relocation entries *)
  getUInt32 ;;; getUInt32 ;;;    (* local relocation entries *)
  ret (mkLoadState (lsSections st) (symoff st) (symnum st)
                   indirsymoff' indirsymnum').

(** LC_FUNCTION_STARTS, LC_DYLIB_CODE_SIGN_DRS, LC_SEGMENT_SPLIT_INFO,
    LC_CODE_SIGNATURE (lines 654-677). *)
Definition readLinkedit (type offset : Z) (st : LoadState) : M LoadState :=
  off <- getUInt32 ;;
  siz <- getUInt32 ;;
  if type =? 0x26 then
    ret (addSection (newSection SectionType.FuncStarts "Function Starts"
                       off siz (add32 offset off)) st)
  else if type =? 0x1D then
    ret (addSection (newSection SectionType.CodeSig "Code Signature"
                       off siz (add32 offset off)) st)
  else ret st.

(** One turn of the command loop (lines 285-720). *)
Definition loadCommand (bits offset : Z) (st : LoadState) : M LoadState :=
  type <- getUInt32 ;;
  cmdsize <- getUInt32 ;;
  if (type =? 1) || (type =? 25) then
    readSegment bits offset st
  else if (type =? 0x22) || (type =? Z.lor 0x22 0x80000000) then
    readDyldInfo ;;; ret st
  else if type =? 2 then
    readSymtab offset st
  else if type =? 0xB then
    readDysymtab st
  else if (type =? 0xC) || (type =? 0xD) || (type =? 0x18 + 0x80000000) then
    liboffset <- getUInt32 ;;
    getUInt32 ;;;                (* time stamp *)
    getUInt32 ;;;                (* current version *)
    getUInt32 ;;;                (* compatibility version *)
    readBytes (wrap32 (cmdsize - liboffset)) ;;;
    ret st
  else if (type =? 0xE) || (type =? 0x27) then
    noffset <- getUInt32 ;;
    readBytes (wrap32 (cmdsize - noffset)) ;;;
    ret st
  else if type =? 0x1B then
    readBytes 16 ;;; ret st
  else if type =? 0x24 then
    getUInt32 ;;; getUInt32 ;;; ret st
  else if type =? 0x2A then
    getUInt64 ;;; ret st
  else if type =? Z.lor 0x28 0x80000000 then
    getUInt64 ;;; getUInt64 ;;; ret st
  else if (type =? 0x26) || (type =? 0x2B) || (type =? 0x1E)
          || (type =? 0x1D) then
    readLinkedit type offset st
  else if type =? 0x29 then
    getUInt32 ;;; getUInt16 ;;; getUInt16 ;;; ret st
  else if (type =? 0x4) || (type =? 0x5) then
    flavor <- getUInt32 ;;
    count <- getUInt32 ;;
    readBytes (wrap32 (flavor * count)) ;;;
    ret st
  else if type =? 0x1C + 0x80000000 then
    off <- getUInt32 ;;
    readBytes (wrap32 (cmdsize - off)) ;;;
    ret st
  else
    exit.

(** The tags that [loadCommand] has a branch for. *)
Definition recognized (type : Z) : bool :=
  existsb (Z.eqb type)
    [1; 25; 0x22; 0x80000022; 2; 0xB; 0xC; 0xD; 0x80000018; 0xE; 0x27;
     0x1B; 0x24; 0x2A; 0x80000028; 0x26; 0x2B; 0x1E; 0x1D; 0x29; 0x4; 0x5;
     0x8000001C].

(** The command loop (line 284). *)
Definition loadCommands (bits offset : Z) (ncmds : nat) (st : LoadState)
    : M LoadState :=
  repeatM ncmds (loadCommand bits offset) st.

(** ** parseHeader: the symbol tables *)

(** One entry of the symbol table (lines 731-761); [acc] is the table so
    far with the running [symsize]. *)
Definition readSymbol (bits : Z) (acc : SymbolTable * Z)
    : M (SymbolTable * Z) :=
  p <- pos ;;
  index <- getUInt32 ;;
  getUChar ;;;                   (* type flag *)
  getUChar ;;;                   (* section number *)
  getUInt16 ;;;                  (* description *)
  value <- getWord bits ;;
  p' <- pos ;;
  ret (fst acc ++ [newSymbolEntry index value],
       wrap32 (snd acc + (p' - p))).

(** "Parse symbol table if found" (lines 725-768): the table, and the
    sections with the Symbol Table section added. *)
Definition readSymbolTable (bits offset : Z) (st : LoadState)
    : M (SymbolTable * LoadState) :=
  if 0 <? symnum st then
    seek (symoff st) ;;;
    res <- repeatM (Z.to_nat (symnum st)) (readSymbol bits) ([], 0) ;;
    ret (fst res,
         addSection (newSection SectionType.Symbols "Symbol Table"
                       (symoff st) (snd res) (add32 offset (symoff st)))
                    st)
  else ret ([], st).

(** One entry of the indirect symbol table (lines 778-784). *)
Definition readDynSymbol (acc : SymbolTable * Z) : M (SymbolTable * Z) :=
  p <- pos ;;
  num <- getUInt32 ;;
  p' <- pos ;;
  ret (fst acc ++ [newSymbolEntry num 0], wrap32 (snd acc + (p' - p))).

(** "Parse dynamic symbol table if found" (lines 772-791). *)
Definition readDynSymbolTable (offset : Z) (st : LoadState)
    : M (SymbolTable * LoadState) :=
  if 0 <? indirsymnum st then
    seek (indirsymoff st) ;;;
    res <- repeatM (Z.to_nat (indirsymnum st)) readDynSymbol ([], 0) ;;
    ret (fst res,
         addSection (newSection SectionType.DynSymbols
                       "Dynamic Symbol Table"
                       (indirsymoff st) (snd res)
                       (add32 offset (indirsymoff st)))
                    st)
  else ret ([], st).

(** "Fill data of stored sections" (lines 794-797). *)
Fixpoint fillSections (secs : list Section) : M (list Section) :=
  match secs with
  | [] => ret []
  | sec :: rest =>
      seek (secOffset sec) ;;;
      data <- readBytes (toInt64 (secSize sec)) ;;
      rest' <- fillSections rest ;;
      ret (setData data sec :: rest')
  end.

(** ** parseHeader: resolution of names *)

(** The bytes of [l] up to, and with, the first zero byte. *)
Fixpoint throughNul (l : list byte) : list byte :=
  match l with
  | [] => []
  | c :: l' => if Byte.eqb c x00 then [c] else c :: throughNul l'
  end.

(** The inner loop of lines 807-812: [tmp], or [None] when [data[i]] is
    read at a negative [i]. *)
Definition scanName (data : list byte) (index : Z) : option (list byte) :=
  let i := toInt32 index in
  if i <? 0 then None else Some (throughNul (dropZ i data)).

Fixpoint resolveStrings (data : list byte) (symbols : SymbolTable)
    : option SymbolTable :=
  match symbols with
  | [] => Some []
  | symbol :: rest =>
      match scanName data (symIndex symbol), resolveStrings data rest with
      | Some tmp, Some rest' => Some (setString (fromUtf8 tmp) symbol :: rest')
      | _, _ => None
      end
  end.

(** "Merge string table entries" (lines 800-815): the symbol table after
    it, whether or not it is then set on the binary object. *)
Definition mergeStrings (symnum : Z) (secs : list Section)
    (symTable : SymbolTable) : option SymbolTable :=
  if 0 <? symnum then
    match getSection SectionType.String secs with
    | Some strTable => resolveStrings (secData strTable) symTable
    | None => Some symTable
    end
  else Some symTable.

(** The loop of lines 827-837, from position [h] on; [None] when
    [symbols[idx]] is read outside the table. *)
Fixpoint resolveDynSymbols (stubAddr symnum : Z) (symbols : SymbolTable)
    (h : Z) (dynsymbols : SymbolTable) : option SymbolTable :=
  match dynsymbols with
  | [] => Some []
  | symbol :: rest =>
      let idx := toInt32 (symIndex symbol) in
      match resolveDynSymbols stubAddr symnum symbols (h + 1) rest with
      | None => None
      | Some rest' =>
          if (0 <=? idx) && (idx <? symnum) then
            match nth_error symbols (Z.to_nat idx) with
            | Some s =>
                Some (setValue (add64 stubAddr (h * 6))
                        (setString (symString s) symbol) :: rest')
            | None => None
            end
          else Some (symbol :: rest')
      end
  end.

(** "Merge data from symbol table and symbol stubs" (lines 821-838). *)
Definition mergeDynSymbols (symnum indirsymnum : Z) (secs : list Section)
    (symTable dynsymTable : SymbolTable) : option SymbolTable :=
  if (0 <? indirsymnum) && (0 <? symnum) then
    match getSection SectionType.SymbolStubs secs with
    | Some stubs =>
        resolveDynSymbols (secAddress stubs) symnum symTable 0 dynsymTable
    | None => Some dynsymTable
    end
  else Some dynsymTable.

(** A pure step that reads outside a buffer when it yields [None]. *)
Definition defined {A} (o : option A) : M A :=
  fun r => match o with Some a => Ok a r | None => Undefined end.

(** ** parseHeader and parse *)

(** Lines 275-791: everything that is read about a slice before the
    contents of its sections. *)
Definition describeSlice (bits offset : Z) (ncmds : Z)
    : M (LoadState * SymbolTable * SymbolTable) :=
  st <- loadCommands bits offset (Z.to_nat ncmds) initLoadState ;;
  sy <- readSymbolTable bits offset st ;;
  dy <- readDynSymbolTable offset (snd sy) ;;
  ret (snd dy, fst sy, fst dy).

(** Lines 94-840: the binary object of the slice at [offset]. *)
Definition decodeSlice (offset size : Z) : M BinaryObject :=
  hdr <- readHeader offset ;;
  d <- describeSlice (hSystemBits hdr) offset (hNcmds hdr) ;;
  let st := fst (fst d) in
  let symTable := snd (fst d) in
  let dynsymTable := snd d in
  secs <- fillSections (lsSections st) ;;
  symTable' <- defined (mergeStrings (symnum st) secs symTable) ;;
  dynsymTable' <- defined (mergeDynSymbols (symnum st) (indirsymnum st)
                             secs symTable' dynsymTable) ;;
  ret (mkBinaryObject (hSystemBits hdr) (hLittleEndian hdr)
         (hCpuType hdr) (hCpuSubType hdr) (hFileType hdr) secs
         (if 0 <? symnum st then symTable' else [])
         (if (0 <? indirsymnum st) && (0 <? symnum st)
          then dynsymTable' else [])).

(** [MachO::parseHeader]; [objects] is the member the decoded objects are
    appended to (line 842). *)
Definition parseHeader (offset size : Z) (objects : list BinaryObject)
    : M (list BinaryObject) :=
  binaryObject <- decodeSlice offset size ;;
  ret (objects ++ [binaryObject]).

(** The ways in which a call of [parse] ends. *)
Inductive ParseResult : Type :=
| Returned (ok : bool) (objects : list BinaryObject)
| ProcessExit
| UndefinedBehaviour.

(** One record of the fat header (lines 54-74). *)
Definition readFatArch (archs : list (Z * Z)) : M (list (Z * Z)) :=
  getUInt32 ;;;                  (* CPU type *)
  getUInt32 ;;;                  (* CPU sub type *)
  offset <- getUInt32 ;;
  size <- getUInt32 ;;
  getUInt32 ;;;                  (* alignment *)
  ret (archs ++ [(offset, size)]).

(** Lines 45-75. *)
Definition readFatHeader : M (list (Z * Z)) :=
  setLittleEndian false ;;;
  nfat_arch <- getUInt32 ;;
  repeatM (Z.to_nat nfat_arch) readFatArch [].

(** "Parse the actual binary objects" (lines 78-82, 90). *)
Fixpoint parseArchs (archs : list (Z * Z)) (objects : list BinaryObject)
    (r : Reader.t) : ParseResult :=
  match archs with
  | [] => Returned true objects
  | arch :: rest =>
      match parseHeader (fst arch) (snd arch) objects r with
      | Ok objects' r' => parseArchs rest objects' r'
      | Failed => Returned false objects
      | Exited => ProcessExit
      | Undefined => UndefinedBehaviour
      end
  end.

(** The test for a universal (fat) binary (line 43). *)
Definition isUniversalMagic (magic : Z) : bool :=
  (magic =? 0xCAFEBABE) || (magic =? 0xBEBAFECA).

(** [MachO::parse]; [None] is a file that cannot be opened, [objects] the
    member list when the call starts. *)
Definition parse (file : option (list byte)) (objects : list BinaryObject)
    : ParseResult :=
  match file with
  | None => Returned false objects
  | Some f =>
      match getUInt32 (Reader.open f) with
      | Ok magic r =>
          if isUniversalMagic magic then
            match readFatHeader r with
            | Ok archs r' => parseArchs archs objects r'
            | Failed => Returned false objects
            | Exited => ProcessExit
            | Undefined => UndefinedBehaviour
            end
          else
            match parseHeader 0 0 objects r with
            | Ok objects' _ => Returned true objects'
            | Failed => Returned false objects
            | Exited => ProcessExit
            | Undefined => UndefinedBehaviour
            end
      | Failed => Returned false objects
      | Exited => ProcessExit
      | Undefined => UndefinedBehaviour
      end
  end.

(** ** Notions used in the statements *)


(** [decoded archs r bos r']: starting with the reader [r], the slices
    listed in [archs] are decoded one after the other, each with success,
    into the binary objects [bos], and leave the reader [r']. *)
Inductive decoded : list (Z * Z) -> Reader.t -> list BinaryObject
                    -> Reader.t -> Prop :=
| decoded_nil (r : Reader.t) : decoded [] r [] r
| decoded_cons (arch : Z * Z) (archs : list (Z * Z)) (r r' r'' : Reader.t)
    (bo : BinaryObject) (bos : list BinaryObject) :
    decodeSlice (fst arch) (snd arch) r = Ok bo r' ->
    decoded archs r' bos r'' ->
    decoded (arch :: archs) r (bo :: bos) r''.

(** Width in bytes of a field read by [getWord]. *)
Definition wordBytes (bits : Z) : Z := if bits =? 32 then 4 else 8.





(** [keepsDev m]: the computation [m] leaves the file under the reader as
    it is. *)
Definition keepsDev {A} (m : M A) : Prop :=
  forall r a r', m r = Ok a r' -> Reader.dev r' = Reader.dev r.

(** [noExit m]: the computation [m] never ends the process. *)
Definition noExit {A} (m : M A) : Prop :=
  forall r, m r <> Exited.

(** The labels under which [parseHeader] registers the sections of a
    type. *)
Definition sectionLabels (ty : SectionType.t) : list string :=
  match ty with
  | SectionType.Text => ["Program"%string]
  | SectionType.SymbolStubs => ["Symbol Stubs"%string]
  | SectionType.CString => ["C-Strings"%string; "ObjC Method Names"%string]
  | SectionType.String => ["String Table"%string]
  | SectionType.FuncStarts => ["Function Starts"%string]
  | SectionType.CodeSig => ["Code Signature"%string]
  | SectionType.Symbols => ["Symbol Table"%string]
  | SectionType.DynSymbols => ["Dynamic Symbol Table"%string]
  end.

(** The types of the sections that are not sections of a segment. *)
Definition isTableSection (ty : SectionType.t) : bool :=
  match ty with
  | SectionType.String | SectionType.FuncStarts | SectionType.CodeSig
  | SectionType.Symbols | SectionType.DynSymbols => true
  | _ => false
  end.

(** What holds of every section registered for a slice with base offset
    [offset]. *)
Definition sectionInvariant (offset : Z) (s : Section) : Prop :=
  In (secName s) (sectionLabels (secType s)) /\
  0 <= secOffset s < 2 ^ 32 /\
  (isTableSection (secType s) = true ->
   secOffset s = add32 offset (secAddress s)).

(** A section that a load command registers. *)
Definition commandSection (offset : Z) (s : Section) : Prop :=
  sectionInvariant offset s /\
  secType s <> SectionType.Symbols /\ secType s <> SectionType.DynSymbols.

(** [establishes P m]: when [m] runs on, its result satisfies [P]. *)
Definition establishes {A} (P : A -> Prop) (m : M A) : Prop :=
  forall r a r', m r = Ok a r' -> P a.

(** [m] reads nothing outside a buffer. *)
Definition noUndefined {A} (m : M A) : Prop :=
  forall r, m r <> Undefined.

(** The position of [r] is inside its file, the end included. *)
Definition within (r : Reader.t) : Prop :=
  0 <= Reader.pos r <= lenZ (Reader.dev r).

(** [m], started inside the file, stays inside the same file and moves
    the reader forward by [n] bytes at least whenever it returns. *)
Definition consumes {A} (n : Z) (m : M A) : Prop :=
  forall r v r',
    within r -> m r = Ok v r' ->
    Reader.dev r' = Reader.dev r /\
    Reader.pos r + n <= Reader.pos r' /\ within r'.

(** [m] moves the reader forward by [n] bytes whenever it returns. *)
Definition advances {A} (n : Z) (m : M A) : Prop :=
  forall r v r', m r = Ok v r' -> Reader.pos r' = Reader.pos r + n.

(** The number of bytes, tag and size words included, that [loadCommand]
    reads for a command whose fields are all read with a check. *)
Definition fixedCommandBytes (type : Z) : option Z :=
  if (type =? 0x22) || (type =? 0x80000022) then Some 48
  else if type =? 2 then Some 24
  else if type =? 0xB then Some 80
  else if type =? 0x24 then Some 16
  else if type =? 0x2A then Some 16
  else if type =? 0x80000028 then Some 24
  else if (type =? 0x26) || (type =? 0x2B) || (type =? 0x1E)
          || (type =? 0x1D) then Some 16
  else if type =? 0x29 then Some 16
  else None.

(** ** Sample files

    Encoders for the concrete files on which the decoder is run below. *)

Definition byteOf (z : Z) : byte :=
  match Byte.of_N (Z.to_N (z mod 256)) with
  | Some b => b
  | None => x00
  end.

Fixpoint leBytes (n : nat) (z : Z) : list byte :=
  match n with
  | O => []
  | Datatypes.S n' => byteOf z :: leBytes n' (z / 256)
  end.

Definition u32le (z : Z) : list byte := leBytes 4 z.
Definition u32be (z : Z) : list byte := rev (leBytes 4 z).
Definition zeros (n : nat) : list byte := repeat x00 n.

(** A name in a 16-byte field, padded with zero bytes. *)
Definition name16 (s : string) : list byte :=
  let b := list_byte_of_string s in b ++ zeros (16 - List.length b).

(** The header of a 32-bit little-endian x86 executable with [ncmds] load
    commands (28 bytes). *)
Definition header32 (ncmds : Z) : list byte :=
  u32le 0xFEEDFACE ++ u32le 7 ++ u32le 3 ++ u32le 2 ++ u32le ncmds
  ++ u32le 0 ++ u32le 0.

(** A slice with three load commands: LC_FUNCTION_STARTS, a command with
    the unassigned tag 0x99 and [cmdsize] 8, LC_CODE_SIGNATURE. *)
Definition sandwichFile : list byte :=
  header32 3
  ++ (u32le 0x26 ++ u32le 16 ++ u32le 68 ++ u32le 4)
  ++ (u32le 0x99 ++ u32le 8)
  ++ (u32le 0x1D ++ u32le 16 ++ u32le 72 ++ u32le 4)
  ++ zeros 8.

(** 28 zero bytes: no Mach-O magic at all. *)
Definition blankFile : list byte := zeros 28.

(** The header of a 64-bit big-endian PowerPC executable without load
    commands (32 bytes). *)
Definition header64be : list byte :=
  u32le 0xFCAFDEEF ++ u32be (18 + 0x01000000) ++ u32be 0x80000000
  ++ u32be 2 ++ u32be 0 ++ u32be 0 ++ u32be 0 ++ u32be 0.

(** A universal binary with two slices, at offsets 48 and 76; its
    directory announces ARM and SPARC, the slices are x86 and 64-bit
    PowerPC. *)
Definition fatFile : list byte :=
  u32be 0xCAFEBABE ++ u32be 2
  ++ (u32be 12 ++ u32be 0 ++ u32be 48 ++ u32be 28 ++ u32be 0)
  ++ (u32be 14 ++ u32be 0 ++ u32be 76 ++ u32be 32 ++ u32be 0)
  ++ header32 0
  ++ header64be.

(** [fatFile] cut off ten bytes into its second slice. *)
Definition truncatedFatFile : list byte :=
  u32be 0xCAFEBABE ++ u32be 2
  ++ (u32be 12 ++ u32be 0 ++ u32be 48 ++ u32be 28 ++ u32be 0)
  ++ (u32be 14 ++ u32be 0 ++ u32be 76 ++ u32be 32 ++ u32be 0)
  ++ header32 0
  ++ firstn 10 header64be.

(** The header of a 64-bit little-endian slice without load commands, cut
    off before its reserved word (28 bytes). *)
Definition shortHeader64 : list byte :=
  u32le 0xFEEDFACF ++ u32le (7 + 0x01000000) ++ u32le 0x80000003
  ++ u32le 2 ++ u32le 0 ++ u32le 0 ++ u32le 0.


(** A slice with one LC_SYMTAB command, one symbol whose string-table
    index is [index], and the string table "foo\0bar\0" (72 bytes: symbol
    entry at 52, strings at 64). *)
Definition symbolFile (index : Z) : list byte :=
  header32 1
  ++ (u32le 2 ++ u32le 24 ++ u32le 52 ++ u32le 1 ++ u32le 64 ++ u32le 8)
  ++ (u32le index ++ [x00; x00; x00; x00] ++ u32le 0x1234)
  ++ list_byte_of_string "foo" ++ [x00]
  ++ list_byte_of_string "bar" ++ [x00].

(** A slice with a [__TEXT,__stubs] section at address 0x1000, two symbols
    "foo" and "bar", and four indirect symbols with the indices 1, 0, 1
    and 7 (symbols at 256, indirect symbols at 280, strings at 296, stubs
    at 304). *)
Definition stubsFile : list byte :=
  header32 3
  ++ (u32le 1 ++ u32le 124 ++ name16 "__TEXT"
      ++ u32le 0x1000 ++ u32le 0x1000 ++ u32le 0 ++ u32le 328
      ++ u32le 7 ++ u32le 5 ++ u32le 1 ++ u32le 0
      ++ name16 "__stubs" ++ name16 "__TEXT"
      ++ u32le 0x1000 ++ u32le 24 ++ u32le 304
      ++ u32le 1 ++ u32le 0 ++ u32le 0 ++ u32le 0 ++ u32le 0 ++ u32le 0)
  ++ (u32le 2 ++ u32le 24 ++ u32le 256 ++ u32le 2 ++ u32le 296 ++ u32le 8)
  ++ (u32le 0xB ++ u32le 80
      ++ u32le 0 ++ u32le 0 ++ u32le 0 ++ u32le 0 ++ u32le 0 ++ u32le 2
      ++ u32le 0 ++ u32le 0 ++ u32le 0 ++ u32le 0 ++ u32le 0 ++ u32le 0
      ++ u32le 280 ++ u32le 4
      ++ u32le 0 ++ u32le 0 ++ u32le 0 ++ u32le 0)
  ++ (u32le 0 ++ [x00; x00; x00; x00] ++ u32le 0x10)
  ++ (u32le 4 ++ [x00; x00; x00; x00] ++ u32le 0x20)
  ++ (u32le 1 ++ u32le 0 ++ u32le 1 ++ u32le 7)
  ++ list_byte_of_string "foo" ++ [x00]
  ++ list_byte_of_string "bar" ++ [x00]
  ++ zeros 24.

(** A universal binary whose only slice is [stubsFile], at offset 28. *)
Definition fatStubsFile : list byte :=
  u32be 0xCAFEBABE ++ u32be 1
  ++ (u32be 7 ++ u32be 3 ++ u32be 28 ++ u32be 328 ++ u32be 0)
  ++ stubsFile.

(** An LC_DYSYMTAB command that announces [indirsymnum] indirect symbols
    at [indirsymoff] (80 bytes). *)
Definition dysymtabCommand (indirsymoff indirsymnum : Z) : list byte :=
  u32le 0xB ++ u32le 80
  ++ u32le 0 ++ u32le 0 ++ u32le 0 ++ u32le 0 ++ u32le 0 ++ u32le 0
  ++ u32le 0 ++ u32le 0 ++ u32le 0 ++ u32le 0 ++ u32le 0 ++ u32le 0
  ++ u32le indirsymoff ++ u32le indirsymnum
  ++ u32le 0 ++ u32le 0 ++ u32le 0 ++ u32le 0.

(** A slice with an LC_DYSYMTAB command and two indirect symbols, but no
    LC_SYMTAB command (116 bytes). *)
Definition dysymtabOnlyFile : list byte :=
  header32 1 ++ dysymtabCommand 108 2 ++ u32le 0 ++ u32le 1.

(** A slice with one symbol "foo" and two indirect symbols, but no
    segment, hence no stubs section (symbol at 132, indirect symbols at
    144, strings at 152). *)
Definition noStubsFile : list byte :=
  header32 2
  ++ (u32le 2 ++ u32le 24 ++ u32le 132 ++ u32le 1 ++ u32le 152 ++ u32le 4)
  ++ dysymtabCommand 144 2
  ++ (u32le 0 ++ [x00; x00; x00; x00] ++ u32le 0x10)
  ++ (u32le 0 ++ u32le 0)
  ++ list_byte_of_string "foo" ++ [x00].

(** * Properties *)

(** ** Byte buffers and the reader *)

Lemma lenZ_nonneg (l : list byte) : 0 <= lenZ l.
Proof. unfold lenZ. lia. Qed.

Lemma lenZ_cons (b : byte) (l : list byte) : lenZ (b :: l) = lenZ l + 1.
Proof. unfold lenZ. cbn [List.length]. lia. Qed.

Lemma lenZ_takeZ (n : Z) (l : list byte) :
  0 <= n -> lenZ (takeZ n l) = Z.min n (lenZ l).
Proof.
  revert n. induction l as [|b l IH]; intros n Hn; cbn [takeZ].
  - unfold lenZ; cbn. lia.
  - destruct (n <=? 0) eqn:E.
    + apply Z.leb_le in E. pose proof (lenZ_nonneg (b :: l)).
      unfold lenZ at 1; cbn. lia.
    + apply Z.leb_gt in E. rewrite !lenZ_cons, IH by lia. lia.
Qed.

Lemma takeZ_nonpos (n : Z) (l : list byte) : n <= 0 -> takeZ n l = [].
Proof.
  intros Hn. destruct l; cbn [takeZ]; [reflexivity|].
  destruct (n <=? 0) eqn:E; [reflexivity|]. apply Z.leb_gt in E. lia.
Qed.

Lemma dropZ_nonpos (n : Z) (l : list byte) : n <= 0 -> dropZ n l = l.
Proof.
  intros Hn. destruct l; cbn [dropZ]; [reflexivity|].
  destruct (n <=? 0) eqn:E; [reflexivity|]. apply Z.leb_gt in E. lia.
Qed.

(** A checked read that succeeds yields the value of the bytes at the
    reader's position and moves the position past them. *)
Lemma checked_Ok (num : Z) (r : Reader.t) (v : Z) (r' : Reader.t) :
  0 <= num ->
  checked num r = Ok v r' ->
  v = uintAt num (Reader.littleEndian r) (Reader.dev r) (Reader.pos r) /\
  r' = Reader.mk (Reader.dev r) (Reader.pos r + num) (Reader.littleEndian r).
Proof.
  intros Hn. unfold checked, Reader.getUInt, Reader.read, uintAt.
  set (buf := takeZ num (dropZ (Reader.pos r) (Reader.dev r))).
  destruct (lenZ buf <? num) eqn:E; [discriminate|].
  apply Z.ltb_ge in E. intros H. injection H as <- <-.
  split; [reflexivity|]. f_equal.
  pose proof (lenZ_takeZ num (dropZ (Reader.pos r) (Reader.dev r)) Hn).
  fold buf in H. lia.
Qed.

(** A checked read succeeds exactly when enough bytes are left. *)
Lemma checked_Failed (num : Z) (r : Reader.t) :
  0 <= num ->
  (checked num r = Failed <->
   lenZ (dropZ (Reader.pos r) (Reader.dev r)) < num).
Proof.
  intros Hn. unfold checked, Reader.getUInt, Reader.read.
  pose proof (lenZ_takeZ num (dropZ (Reader.pos r) (Reader.dev r)) Hn) as L.
  destruct (lenZ (takeZ num _) <? num) eqn:E.
  - apply Z.ltb_lt in E. split; [lia | reflexivity].
  - apply Z.ltb_ge in E. split; [discriminate | lia].
Qed.

(** ** Reasoning in the decoder monad *)

Lemma bind_Ok {A B} (m : M A) (k : A -> M B) r b r'' :
  bind m k r = Ok b r'' ->
  exists a r', m r = Ok a r' /\ k a r' = Ok b r''.
Proof.
  unfold bind. destruct (m r) as [a r'| | |]; try discriminate. eauto.
Qed.

Lemma bind_eq_Ok {A B} (m : M A) (k : A -> M B) r a r' :
  m r = Ok a r' -> bind m k r = k a r'.
Proof. unfold bind. intros ->. reflexivity. Qed.

Lemma ret_Ok {A} (a b : A) r r' : ret a r = Ok b r' -> a = b /\ r = r'.
Proof. unfold ret. intros H. injection H as <- <-. auto. Qed.

Lemma repeatM_add {S} (k m : nat) (body : S -> M S) (st : S) (r : Reader.t) :
  repeatM (k + m) body st r =
  bind (repeatM k body st) (repeatM m body) r.
Proof.
  revert st r. induction k as [|k IH]; intros st r; cbn [repeatM Nat.add].
  - reflexivity.
  - unfold bind in *. destruct (body st r); try reflexivity. apply IH.
Qed.

(** An invariant of the loop body is an invariant of the loop. *)
Lemma repeatM_inv {S} (I : S -> Reader.t -> Prop) (body : S -> M S) :
  (forall st r st' r', I st r -> body st r = Ok st' r' -> I st' r') ->
  forall n st r st' r',
    I st r -> repeatM n body st r = Ok st' r' -> I st' r'.
Proof.
  intros Hbody. induction n as [|n IH]; intros st r st' r' HI H.
  - apply ret_Ok in H as [<- <-]. exact HI.
  - cbn [repeatM] in H. apply bind_Ok in H as (st1 & r1 & H1 & H2).
    eapply IH; [|exact H2]. eapply Hbody; eauto.
Qed.

(** ** detect *)

Lemma uintAt_4_le (b0 b1 b2 b3 : byte) (rest : list byte) :
  uintAt 4 true (b0 :: b1 :: b2 :: b3 :: rest) 0 =
  byteVal b0 + 256 * byteVal b1 + 65536 * byteVal b2
  + 16777216 * byteVal b3.
Proof.
  unfold uintAt, Reader.decode.
  change (takeZ 4 (dropZ 0 (b0 :: b1 :: b2 :: b3 :: rest)))
    with (b0 :: b1 :: b2 :: b3 :: takeZ 0 rest).
  rewrite takeZ_nonpos by lia. cbn [leValue]. lia.
Qed.

(** C7: [detect] answers true exactly when the stream has at least four
    bytes and the first four, read as a little-endian 32-bit value, are
    one of the six magic constants; it answers false for every other
    stream, among them the streams shorter than four bytes and the file
    that cannot be opened. Being a total function to [bool], it has no
    other way to end. *)
Theorem detect_iff_magic (file : option (list byte)) :
  detect file = true <->
  exists b0 b1 b2 b3 rest,
    file = Some (b0 :: b1 :: b2 :: b3 :: rest) /\
    In (byteVal b0 + 256 * byteVal b1 + 65536 * byteVal b2
        + 16777216 * byteVal b3)
       [0xFEEDFACE; 0xFEEDFACF; 0xECAFDEEF; 0xFCAFDEEF;
        0xCAFEBABE; 0xBEBAFECA].
Proof.
  assert (Hmagic : forall m, isMachMagic m = true <->
            In m [0xFEEDFACE; 0xFEEDFACF; 0xECAFDEEF; 0xFCAFDEEF;
                  0xCAFEBABE; 0xBEBAFECA]).
  { intros m. unfold isMachMagic. rewrite !orb_true_iff, !Z.eqb_eq.
    cbn [In]. intuition congruence. }
  destruct file as [f|]; cbn [detect].
  2:{ split; [discriminate | intros (?&?&?&?&?&E&_); discriminate]. }
  assert (Hlen : forall b0 b1 b2 b3 rest,
            f = b0 :: b1 :: b2 :: b3 :: rest -> 4 <= lenZ f).
  { intros b0 b1 b2 b3 rest ->. rewrite !lenZ_cons.
    pose proof (lenZ_nonneg rest). lia. }
  pose proof (checked_Failed 4 (Reader.open f) ltac:(lia)) as HF.
  pose proof (checked_Ok 4 (Reader.open f)) as HO.
  unfold checked in HF, HO.
  cbn [Reader.open Reader.littleEndian Reader.dev Reader.pos] in HF, HO.
  rewrite dropZ_nonpos in HF by lia.
  destruct (Reader.getUInt 4 (Reader.open f)) as [[v|] r1].
  - destruct (HO v r1 ltac:(lia) eq_refl) as [-> _].
    assert (4 <= lenZ f) as L.
    { destruct (Z_lt_le_dec (lenZ f) 4) as [L|L]; [|exact L].
      apply HF in L. discriminate. }
    destruct f as [|b0 [|b1 [|b2 [|b3 rest]]]];
      try (unfold lenZ in L; cbn in L; lia).
    rewrite Hmagic, uintAt_4_le. split.
    + intros H. exists b0, b1, b2, b3, rest. auto.
    + intros (c0 & c1 & c2 & c3 & rest' & E & H).
      injection E as -> -> -> -> ->. exact H.
  - split; [discriminate|].
    intros (b0 & b1 & b2 & b3 & rest & E & _). injection E as E.
    apply Hlen in E. pose proof (proj1 HF eq_refl). lia.
Qed.

(** ** Unrecognized load commands *)

(** A command whose tag has no branch ends the process, whatever its
    [cmdsize]. *)
Lemma loadCommand_unrecognized (bits offset : Z) (st : LoadState)
    (r r2 r3 : Reader.t) (type cmdsize : Z) :
  getUInt32 r = Ok type r2 ->
  getUInt32 r2 = Ok cmdsize r3 ->
  recognized type = false ->
  loadCommand bits offset st r = Exited.
Proof.
  intros H1 H2 Hrec. unfold loadCommand.
  rewrite (bind_eq_Ok _ _ _ _ _ H1), (bind_eq_Ok _ _ _ _ _ H2).
  repeat match goal with
         | |- context [type =? ?c] =>
             let E := fresh "E" in
             destruct (type =? c) eqn:E;
             [ exfalso; apply Z.eqb_eq in E; subst type;
               vm_compute in Hrec; discriminate
             | cbn [orb] ]
         end.
  reflexivity.
Qed.

(** The recognized set, spelled out. *)
Lemma recognized_tags (type : Z) :
  recognized type = true <->
  In type [1; 25; 0x22; 0x80000022; 2; 0xB; 0xC; 0xD; 0x80000018; 0xE;
           0x27; 0x1B; 0x24; 0x2A; 0x80000028; 0x26; 0x2B; 0x1E; 0x1D;
           0x29; 0x4; 0x5; 0x8000001C].
Proof.
  unfold recognized. rewrite existsb_exists. split.
  - intros (c & Hin & E). apply Z.eqb_eq in E. subst c. exact Hin.
  - intros Hin. exists type. split; [exact Hin | apply Z.eqb_refl].
Qed.

Lemma loadCommands_unrecognized (bits offset : Z) (k n : nat)
    (st st1 : LoadState) (r r1 r2 r3 : Reader.t) (type cmdsize : Z) :
  (k < n)%nat ->
  loadCommands bits offset k st r = Ok st1 r1 ->
  getUInt32 r1 = Ok type r2 ->
  getUInt32 r2 = Ok cmdsize r3 ->
  recognized type = false ->
  loadCommands bits offset n st r = Exited.
Proof.
  intros Hk Hpre H1 H2 Hrec. unfold loadCommands in *.
  replace n with (k + Datatypes.S (n - Datatypes.S k))%nat by lia.
  rewrite repeatM_add, (bind_eq_Ok _ _ _ _ _ Hpre). cbn [repeatM].
  unfold bind.
  rewrite (loadCommand_unrecognized bits offset st1 r1 r2 r3 type cmdsize)
    by assumption.
  reflexivity.
Qed.

Lemma noExit_ret {A} (a : A) : noExit (ret a).
Proof. intros r H. discriminate. Qed.

Lemma noExit_bind {A B} (m : M A) (k : A -> M B) :
  noExit m -> (forall a, noExit (k a)) -> noExit (bind m k).
Proof.
  intros Hm Hk r. unfold bind. specialize (Hm r).
  destruct (m r) as [a r'| | |]; try discriminate; [apply Hk | contradiction].
Qed.

Lemma noExit_checked (num : Z) : noExit (checked num).
Proof.
  intros r. unfold checked. destruct (Reader.getUInt num r) as [[v|] r'];
    discriminate.
Qed.

Lemma noExit_skipUInt32 : noExit skipUInt32.
Proof. intros r H. discriminate. Qed.

Lemma noExit_readBytes (max : Z) : noExit (readBytes max).
Proof. intros r. unfold readBytes, Reader.read. discriminate. Qed.

Lemma noExit_repeatM {S} (body : S -> M S) (n : nat) :
  (forall st, noExit (body st)) -> forall st, noExit (repeatM n body st).
Proof.
  intros Hb. induction n as [|n IH]; intros st; cbn [repeatM].
  - apply noExit_ret.
  - apply noExit_bind; auto.
Qed.

Create HintDb noexit.

#[local] Hint Resolve noExit_ret noExit_checked noExit_skipUInt32
  noExit_readBytes : noexit.

Ltac noexit :=
  repeat first
    [ solve [auto with noexit]
    | match goal with
      | |- noExit (repeatM _ _ _) => apply noExit_repeatM; intros
      | |- noExit (bind _ _) => apply noExit_bind; [|intros]
      | |- noExit (if ?b then _ else _) => destruct b
      end ].

Lemma noExit_getWord (bits : Z) : noExit (getWord bits).
Proof. unfold getWord, getUInt32, getUInt64. noexit. Qed.

#[local] Hint Resolve noExit_getWord : noexit.

Lemma noExit_readSection (bits offset : Z) (st : LoadState) :
  noExit (readSection bits offset st).
Proof. unfold readSection, getUInt32. noexit. Qed.

#[local] Hint Resolve noExit_readSection : noexit.

(** Once the tag and the size of a command are read, the command loop
    ends the process exactly when the tag is outside the recognized
    set. *)
Lemma loadCommand_exits_iff (bits offset : Z) (st : LoadState)
    (r r2 r3 : Reader.t) (type cmdsize : Z) :
  getUInt32 r = Ok type r2 ->
  getUInt32 r2 = Ok cmdsize r3 ->
  (loadCommand bits offset st r = Exited <-> recognized type = false).
Proof.
  intros H1 H2. split;
    [|apply (loadCommand_unrecognized _ _ _ _ _ _ _ _ H1 H2)].
  destruct (recognized type) eqn:Hrec; [|reflexivity].
  intros Hexit. exfalso. revert Hexit.
  unfold loadCommand.
  rewrite (bind_eq_Ok _ _ _ _ _ H1), (bind_eq_Ok _ _ _ _ _ H2).
  repeat match goal with
         | |- context [if ?b then _ else _] =>
             let E := fresh "E" in destruct b eqn:E
         end.
  15: { intros _. apply recognized_tags in Hrec. cbn [In] in Hrec.
        clear H1 H2.
        repeat (destruct Hrec as [Hrec|Hrec];
                [subst type; vm_compute in *; discriminate|]).
        contradiction. }
  all: match goal with
       | |- ?m ?x = Exited -> False => apply (fun (H : noExit m) => H x)
       end.
  all: unfold readSegment, readDyldInfo, readSymtab, readDysymtab,
         readLinkedit, getUInt16, getUInt32, getUInt64.
  all: noexit.
Qed.

(** C1, as the code has it: when the command loop of a slice comes to a
    command whose tag is outside the recognized set, the decoder ends the
    process at that command, whatever its [cmdsize]; the command is not
    skipped, the commands after it are not read and the slice yields no
    binary object. *)
Theorem unrecognized_command_exits (offset size : Z)
    (objects : list BinaryObject) (r r0 r1 r2 r3 : Reader.t) (hdr : Header)
    (k : nat) (st1 : LoadState) (type cmdsize : Z) :
  readHeader offset r = Ok hdr r0 ->
  (k < Z.to_nat (hNcmds hdr))%nat ->
  loadCommands (hSystemBits hdr) offset k initLoadState r0 = Ok st1 r1 ->
  getUInt32 r1 = Ok type r2 ->
  getUInt32 r2 = Ok cmdsize r3 ->
  recognized type = false ->
  parseHeader offset size objects r = Exited.
Proof.
  intros Hh Hk Hpre H1 H2 Hrec.
  unfold parseHeader, decodeSlice.
  unfold bind at 1 2. rewrite Hh.
  unfold describeSlice, bind at 1 2.
  rewrite (loadCommands_unrecognized _ _ k _ _ st1 _ r1 r2 r3 type cmdsize)
    by assumption.
  reflexivity.
Qed.

Lemma unrecognized_command_exits_witness :
  recognized 0x99 = false /\
  parseHeader 0 0 [] (Reader.mk sandwichFile 4 true) = Exited.
Proof.
  split; [reflexivity|].
  eapply (unrecognized_command_exits 0 0 [] _ _ _ _ _ _ 1%nat).
  - vm_compute. reflexivity.
  - vm_compute. lia.
  - vm_compute. reflexivity.
  - vm_compute. reflexivity.
  - vm_compute. reflexivity.
  - reflexivity.
Defined.

(** C1 fails as stated: the file [sandwichFile] has a command with the
    unrecognized tag 0x99 and the valid [cmdsize] 8 between two recognized
    commands, and decoding it ends the process instead of succeeding. *)
Lemma unrecognized_command_not_skipped :
  recognized 0x99 = false /\
  parse (Some sandwichFile) [] = ProcessExit /\
  ~ (exists objects, parse (Some sandwichFile) [] = Returned true objects).
Proof.
  assert (E : parse (Some sandwichFile) [] = ProcessExit)
    by (vm_compute; reflexivity).
  split; [reflexivity|]. split; [exact E|].
  intros (objects & H). rewrite E in H. discriminate.
Qed.

(** ** The decoder never changes the file it reads *)

Create HintDb keeps.

Lemma keepsDev_ret {A} (a : A) : keepsDev (ret a).
Proof. intros r b r' H. apply ret_Ok in H as [_ <-]. reflexivity. Qed.

Lemma keepsDev_bind {A B} (m : M A) (k : A -> M B) :
  keepsDev m -> (forall a, keepsDev (k a)) -> keepsDev (bind m k).
Proof.
  intros Hm Hk r b r'' H. apply bind_Ok in H as (a & r' & H1 & H2).
  rewrite (Hk _ _ _ _ H2). eapply Hm; eauto.
Qed.

Lemma keepsDev_checked (num : Z) : keepsDev (checked num).
Proof.
  intros r v r'. unfold checked, Reader.getUInt, Reader.read.
  destruct (_ <? num); [discriminate|]. intros H. injection H as _ <-.
  reflexivity.
Qed.

Lemma keepsDev_skipUInt32 : keepsDev skipUInt32.
Proof.
  intros r v r'. unfold skipUInt32, Reader.getUInt, Reader.read.
  destruct (_ <? 4); intros H; inversion H; reflexivity.
Qed.

Lemma keepsDev_readBytes (max : Z) : keepsDev (readBytes max).
Proof.
  intros r v r'. unfold readBytes, Reader.read. intros H.
  injection H as _ <-. reflexivity.
Qed.

Lemma keepsDev_seek (p : Z) : keepsDev (seek p).
Proof. intros r v r' H. inversion H. reflexivity. Qed.

Lemma keepsDev_setLittleEndian (le : bool) : keepsDev (setLittleEndian le).
Proof. intros r v r' H. inversion H. reflexivity. Qed.

Lemma keepsDev_pos : keepsDev pos.
Proof. intros r v r' H. inversion H. subst. reflexivity. Qed.

Lemma keepsDev_exit {A} : keepsDev (@exit A).
Proof. intros r v r' H. discriminate. Qed.

Lemma keepsDev_defined {A} (o : option A) : keepsDev (defined o).
Proof.
  intros r v r'. unfold defined. destruct o; [|discriminate].
  intros H. injection H as _ <-. reflexivity.
Qed.

Lemma keepsDev_repeatM {S} (body : S -> M S) (n : nat) :
  (forall st, keepsDev (body st)) -> forall st, keepsDev (repeatM n body st).
Proof.
  intros Hb. induction n as [|n IH]; intros st; cbn [repeatM].
  - apply keepsDev_ret.
  - apply keepsDev_bind; auto.
Qed.

#[local] Hint Resolve keepsDev_ret keepsDev_checked keepsDev_skipUInt32
  keepsDev_readBytes keepsDev_seek keepsDev_setLittleEndian keepsDev_pos
  keepsDev_exit keepsDev_defined : keeps.

Ltac keeps :=
  repeat first
    [ solve [auto with keeps]
    | apply keepsDev_bind; [|intros]
    | match goal with
      | |- keepsDev (if ?b then _ else _) => destruct b
      end ].

Lemma keepsDev_getWord (bits : Z) : keepsDev (getWord bits).
Proof. unfold getWord, getUInt32, getUInt64. keeps. Qed.

#[local] Hint Resolve keepsDev_getWord keepsDev_repeatM : keeps.

Lemma keepsDev_readHeader (offset : Z) : keepsDev (readHeader offset).
Proof. unfold readHeader, getUInt32. keeps. Qed.

Lemma keepsDev_readSection (bits offset : Z) (st : LoadState) :
  keepsDev (readSection bits offset st).
Proof. unfold readSection, getUInt32. keeps. Qed.

#[local] Hint Resolve keepsDev_readHeader keepsDev_readSection : keeps.

Lemma keepsDev_loadCommand (bits offset : Z) (st : LoadState) :
  keepsDev (loadCommand bits offset st).
Proof.
  unfold loadCommand, readSegment, readDyldInfo, readSymtab, readDysymtab,
    readLinkedit, getUInt16, getUInt32, getUInt64.
  keeps.
Qed.

Lemma keepsDev_readSymbol (bits : Z) (acc : SymbolTable * Z) :
  keepsDev (readSymbol bits acc).
Proof. unfold readSymbol, getUChar, getUInt16, getUInt32. keeps. Qed.

Lemma keepsDev_readDynSymbol (acc : SymbolTable * Z) :
  keepsDev (readDynSymbol acc).
Proof. unfold readDynSymbol, getUInt32. keeps. Qed.

#[local] Hint Resolve keepsDev_loadCommand keepsDev_readSymbol
  keepsDev_readDynSymbol : keeps.

Lemma keepsDev_describeSlice (bits offset ncmds : Z) :
  keepsDev (describeSlice bits offset ncmds).
Proof.
  unfold describeSlice, loadCommands, readSymbolTable, readDynSymbolTable.
  keeps.
Qed.

Lemma keepsDev_fillSections (secs : list Section) :
  keepsDev (fillSections secs).
Proof. induction secs as [|s secs IH]; cbn [fillSections]; keeps. Qed.

#[local] Hint Resolve keepsDev_describeSlice keepsDev_fillSections : keeps.

Lemma keepsDev_decodeSlice (offset size : Z) :
  keepsDev (decodeSlice offset size).
Proof. unfold decodeSlice. keeps. Qed.

#[local] Hint Resolve keepsDev_decodeSlice : keeps.

Lemma keepsDev_parseHeader (offset size : Z) (objects : list BinaryObject) :
  keepsDev (parseHeader offset size objects).
Proof. unfold parseHeader. keeps. Qed.

(** ** The slice header *)

(** What a successful [readHeader] has read, in terms of the bytes of the
    file: the magic at the base offset in little-endian order, and the
    fields behind it in the byte order the magic selects. *)
Lemma readHeader_Ok (offset : Z) (r r0 : Reader.t) (hdr : Header) :
  readHeader offset r = Ok hdr r0 ->
  let magic := uintAt 4 true (Reader.dev r) offset in
  let le := snd (classifyMagic magic) in
  hSystemBits hdr = fst (classifyMagic magic) /\
  hLittleEndian hdr = le /\
  hCpuType hdr = cpuTypeOf (uintAt 4 le (Reader.dev r) (offset + 4)) /\
  hFileType hdr = fileTypeOf (uintAt 4 le (Reader.dev r) (offset + 12)) /\
  hNcmds hdr = uintAt 4 le (Reader.dev r) (offset + 16) /\
  Reader.littleEndian r0 = le.
Proof.
  intros H. unfold readHeader in H.
  apply bind_Ok in H as (u1 & r1 & H1 & H). inversion H1; subst u1 r1; clear H1.
  apply bind_Ok in H as (u2 & r2 & H2 & H). inversion H2; subst u2 r2; clear H2.
  apply bind_Ok in H as (magic & r3 & H3 & H).
  apply checked_Ok in H3 as [Hm ->]; [|lia].
  cbn [Reader.seek Reader.setLittleEndian Reader.dev Reader.pos
       Reader.littleEndian] in Hm.
  cbn [Reader.seek Reader.setLittleEndian Reader.dev Reader.pos
       Reader.littleEndian] in H.
  apply bind_Ok in H as (u4 & r4 & H4 & H). inversion H4; subst u4 r4; clear H4.
  apply bind_Ok in H as (cputype & r5 & H5 & H).
  apply checked_Ok in H5 as [Hc ->]; [|lia].
  apply bind_Ok in H as (cpusubtype & r6 & H6 & H).
  apply checked_Ok in H6 as [_ ->]; [|lia].
  apply bind_Ok in H as (filetype & r7 & H7 & H).
  apply checked_Ok in H7 as [Hf ->]; [|lia].
  apply bind_Ok in H as (ncmds & r8 & H8 & H).
  apply checked_Ok in H8 as [Hn ->]; [|lia].
  apply bind_Ok in H as (sizeofcmds & r9 & H9 & H).
  apply checked_Ok in H9 as [_ ->]; [|lia].
  apply bind_Ok in H as (flags & r10 & H10 & H).
  apply checked_Ok in H10 as [_ ->]; [|lia].
  apply bind_Ok in H as (u11 & r11 & H11 & H).
  apply ret_Ok in H as [<- <-].
  cbn [Reader.setLittleEndian Reader.dev Reader.pos Reader.littleEndian]
    in *.
  cbn [hSystemBits hLittleEndian hCpuType hFileType hNcmds].
  cbv zeta. subst magic cputype filetype ncmds.
  assert (Reader.littleEndian r11
          = snd (classifyMagic (uintAt 4 true (Reader.dev r) offset))) as Hle.
  { destruct (fst (classifyMagic (uintAt 4 true (Reader.dev r) offset)) =? 64).
    - unfold skipUInt32, Reader.getUInt, Reader.read in H11.
      destruct (_ <? 4) in H11; inversion H11; reflexivity.
    - inversion H11. reflexivity. }
  repeat split; try reflexivity; try exact Hle.
  - do 2 f_equal. lia.
  - f_equal. lia.
Qed.

(** The phases of a successful [decodeSlice]. *)
Lemma decodeSlice_Ok (offset size : Z) (r r' : Reader.t) (bo : BinaryObject) :
  decodeSlice offset size r = Ok bo r' ->
  exists hdr r0 st symTable dynsymTable r1 secs symTable' dynsymTable',
    readHeader offset r = Ok hdr r0 /\
    describeSlice (hSystemBits hdr) offset (hNcmds hdr) r0
      = Ok (st, symTable, dynsymTable) r1 /\
    fillSections (lsSections st) r1 = Ok secs r' /\
    mergeStrings (symnum st) secs symTable = Some symTable' /\
    mergeDynSymbols (symnum st) (indirsymnum st) secs symTable' dynsymTable
      = Some dynsymTable' /\
    bo = mkBinaryObject (hSystemBits hdr) (hLittleEndian hdr)
           (hCpuType hdr) (hCpuSubType hdr) (hFileType hdr) secs
           (if 0 <? symnum st then symTable' else [])
           (if (0 <? indirsymnum st) && (0 <? symnum st)
            then dynsymTable' else []).
Proof.
  intros H. unfold decodeSlice in H.
  apply bind_Ok in H as (hdr & r0 & Hh & H).
  apply bind_Ok in H as ([[st symTable] dynsymTable] & r1 & Hd & H).
  cbn [fst snd] in H.
  apply bind_Ok in H as (secs & r2 & Hf & H).
  apply bind_Ok in H as (symTable' & r3 & Hs & H).
  apply bind_Ok in H as (dynsymTable' & r4 & Hy & H).
  apply ret_Ok in H as [<- <-].
  unfold defined in Hs, Hy.
  destruct (mergeStrings _ _ _) as [t1|] eqn:E1; [|discriminate].
  inversion Hs; subst t1 r3; clear Hs.
  destruct (mergeDynSymbols _ _ _ _ _) as [t2|] eqn:E2; [|discriminate].
  inversion Hy; subst t2 r4; clear Hy.
  exists hdr, r0, st, symTable, dynsymTable, r1, secs, symTable', dynsymTable'.
  repeat split; assumption.
Qed.

(** C6, as the code has it: the slice decoder seeks to the base offset,
    reads the magic there in little-endian order and takes bit-width and
    byte order from it; each of the four single-architecture constants
    selects its own pair, and the magic is not validated: a slice with any
    other magic is decoded all the same, as a 32-bit little-endian one. *)
Theorem slice_magic_classification (offset size : Z)
    (objects objects' : list BinaryObject) (r r' : Reader.t) :
  parseHeader offset size objects r = Ok objects' r' ->
  exists bo,
    objects' = objects ++ [bo] /\
    let magic := uintAt 4 true (Reader.dev r) offset in
    (magic = 0xFEEDFACE -> systemBits bo = 32 /\ littleEndian bo = true) /\
    (magic = 0xFEEDFACF -> systemBits bo = 64 /\ littleEndian bo = true) /\
    (magic = 0xECAFDEEF -> systemBits bo = 32 /\ littleEndian bo = false) /\
    (magic = 0xFCAFDEEF -> systemBits bo = 64 /\ littleEndian bo = false) /\
    (~ In magic [0xFEEDFACE; 0xFEEDFACF; 0xECAFDEEF; 0xFCAFDEEF] ->
     systemBits bo = 32 /\ littleEndian bo = true).
Proof.
  intros H. unfold parseHeader in H.
  apply bind_Ok in H as (bo & r1 & Hd & H). apply ret_Ok in H as [<- <-].
  exists bo. split; [reflexivity|].
  apply decodeSlice_Ok in Hd
    as (hdr & r0 & st & sy & dy & r2 & secs & sy' & dy' & Hh & _ & _ & _ & _ & ->).
  apply readHeader_Ok in Hh as (Hb & Hl & _).
  cbn [systemBits littleEndian]. rewrite Hb, Hl. cbv zeta.
  generalize (uintAt 4 true (Reader.dev r) offset). intros magic.
  assert (Hn : ~ In magic [0xFEEDFACE; 0xFEEDFACF; 0xECAFDEEF; 0xFCAFDEEF] ->
               classifyMagic magic = (32, true)).
  { intros Hn. cbn [In] in Hn. unfold classifyMagic.
    repeat match goal with
           | |- context [?m =? ?c] =>
               let E := fresh "E" in
               destruct (m =? c) eqn:E;
               [apply Z.eqb_eq in E; exfalso; apply Hn; auto|]
           end.
    reflexivity. }
  split; [intros ->; split; reflexivity|].
  split; [intros ->; split; reflexivity|].
  split; [intros ->; split; reflexivity|].
  split; [intros ->; split; reflexivity|].
  intros H. rewrite (Hn H). split; reflexivity.
Qed.

Lemma slice_magic_classification_witness :
  exists bo,
    [bo] = [] ++ [bo] /\
    uintAt 4 true blankFile 0 = 0 /\
    systemBits bo = 32 /\ littleEndian bo = true.
Proof.
  destruct (slice_magic_classification 0 0 []
              [mkBinaryObject 32 true X86 I386 Object [] [] []]
              (Reader.mk blankFile 4 true) (Reader.mk blankFile 28 true))
    as (bo & E & _ & _ & _ & _ & H).
  - vm_compute. reflexivity.
  - exists bo. split; [reflexivity|]. split; [reflexivity|].
    apply H. vm_compute. intuition discriminate.
Defined.

(** C6 fails as stated: the magic of [blankFile] is 0, none of the four
    constants, and the file is decoded into a binary object like any valid
    slice. *)
Lemma unvalidated_magic_decoded :
  uintAt 4 true blankFile 0 = 0 /\
  parse (Some blankFile) []
  = Returned true [mkBinaryObject 32 true X86 I386 Object [] [] []].
Proof. split; vm_compute; reflexivity. Qed.

(** ** Universal binaries *)

Lemma byteVal_nonneg (b : byte) : 0 <= byteVal b.
Proof. unfold byteVal. apply N2Z.is_nonneg. Qed.

Lemma leValue_nonneg (l : list byte) : 0 <= leValue l.
Proof.
  induction l as [|b l IH]; cbn [leValue]; [lia|].
  pose proof (byteVal_nonneg b). lia.
Qed.

Lemma uintAt_nonneg (num : Z) (le : bool) (f : list byte) (p : Z) :
  0 <= uintAt num le f p.
Proof. unfold uintAt, Reader.decode. destruct le; apply leValue_nonneg. Qed.

(** A loop whose body adds one to a measure of the state adds the number
    of its turns. *)
Lemma repeatM_count {S} (mu : S -> nat) (body : S -> M S) :
  (forall st r st' r', body st r = Ok st' r' -> mu st' = Datatypes.S (mu st)) ->
  forall n st r st' r',
    repeatM n body st r = Ok st' r' -> mu st' = (n + mu st)%nat.
Proof.
  intros Hbody. induction n as [|n IH]; intros st r st' r' H.
  - apply ret_Ok in H as [<- _]. reflexivity.
  - cbn [repeatM] in H. apply bind_Ok in H as (st1 & r1 & H1 & H2).
    rewrite (IH _ _ _ _ H2), (Hbody _ _ _ _ H1). lia.
Qed.

(** One record of the directory: 20 bytes, of which the third and the
    fourth word are kept. *)
Lemma readFatArch_Ok (archs archs' : list (Z * Z)) (r r' : Reader.t) :
  readFatArch archs r = Ok archs' r' ->
  archs' = archs ++
    [(uintAt 4 (Reader.littleEndian r) (Reader.dev r) (Reader.pos r + 8),
      uintAt 4 (Reader.littleEndian r) (Reader.dev r) (Reader.pos r + 12))]
  /\ r' = Reader.mk (Reader.dev r) (Reader.pos r + 20)
                    (Reader.littleEndian r).
Proof.
  intros H. unfold readFatArch in H.
  apply bind_Ok in H as (v1 & r1 & H1 & H).
  apply checked_Ok in H1 as [_ ->]; [|lia].
  apply bind_Ok in H as (v2 & r2 & H2 & H).
  apply checked_Ok in H2 as [_ ->]; [|lia].
  apply bind_Ok in H as (offset & r3 & H3 & H).
  apply checked_Ok in H3 as [Ho ->]; [|lia].
  apply bind_Ok in H as (size & r4 & H4 & H).
  apply checked_Ok in H4 as [Hs ->]; [|lia].
  apply bind_Ok in H as (v5 & r5 & H5 & H).
  apply checked_Ok in H5 as [_ ->]; [|lia].
  apply ret_Ok in H as [<- <-].
  cbn [Reader.dev Reader.pos Reader.littleEndian] in *. subst offset size.
  split.
  - do 3 f_equal; f_equal; lia.
  - f_equal. lia.
Qed.

(** The directory of a universal binary, in terms of the bytes of the
    file: a big-endian count at offset 4 and that many 20-byte records from
    offset 8 on. *)
Lemma readFatHeader_Ok (f : list byte) (le : bool)
    (archs : list (Z * Z)) (r' : Reader.t) :
  readFatHeader (Reader.mk f 4 le) = Ok archs r' ->
  Z.of_nat (List.length archs) = uintAt 4 false f 4 /\
  Reader.dev r' = f /\
  forall i arch, nth_error archs i = Some arch ->
    arch = (uintAt 4 false f (8 + 20 * Z.of_nat i + 8),
            uintAt 4 false f (8 + 20 * Z.of_nat i + 12)).
Proof.
  intros H. unfold readFatHeader in H.
  apply bind_Ok in H as (u & r1 & H1 & H). inversion H1; subst u r1; clear H1.
  apply bind_Ok in H as (n & r2 & H2 & H).
  apply checked_Ok in H2 as [Hn ->]; [|lia].
  cbn [Reader.setLittleEndian Reader.dev Reader.pos Reader.littleEndian]
    in *.
  split.
  { apply (repeatM_count (@List.length (Z * Z))) in H.
    - rewrite H. cbn [List.length]. rewrite Nat.add_0_r, Z2Nat.id; [exact Hn|].
      subst n. apply uintAt_nonneg.
    - intros st r st' r0 Hb. apply readFatArch_Ok in Hb as [-> _].
      rewrite length_app. cbn. lia. }
  pose (I := fun (archs : list (Z * Z)) (r : Reader.t) =>
    Reader.dev r = f /\ Reader.littleEndian r = false /\
    Reader.pos r = 8 + 20 * Z.of_nat (List.length archs) /\
    forall i arch, nth_error archs i = Some arch ->
      arch = (uintAt 4 false f (8 + 20 * Z.of_nat i + 8),
              uintAt 4 false f (8 + 20 * Z.of_nat i + 12))).
  assert (HI : I archs r').
  { eapply (repeatM_inv I); [| |exact H].
    - intros st r st' r0 (Hd & Hl & Hp & Hnth) Hb.
      apply readFatArch_Ok in Hb as [-> ->].
      unfold I. cbn [Reader.dev Reader.pos Reader.littleEndian].
      rewrite length_app. cbn [List.length].
      repeat split; [assumption | assumption | lia |].
      intros i arch Hi.
      destruct (Nat.lt_ge_cases i (List.length st)) as [Hlt|Hge].
      + rewrite nth_error_app1 in Hi by assumption. auto.
      + rewrite nth_error_app2 in Hi by assumption.
        destruct (i - List.length st)%nat as [|j] eqn:Ej.
        * cbn in Hi. injection Hi as <-.
          assert (i = List.length st) as -> by lia.
          rewrite Hd, Hl, Hp. f_equal; f_equal; lia.
        * destruct j; discriminate.
    - unfold I. cbn. repeat split. intros [|i] arch Hi; discriminate. }
  destruct HI as (Hd & _ & _ & Hnth). auto.
Qed.

(** The objects a successful loop over the slices appends: one per slice,
    in order, each decoded from the same file. *)
Lemma parseArchs_true (archs : list (Z * Z)) :
  forall (objects objects' : list BinaryObject) (r : Reader.t),
    parseArchs archs objects r = Returned true objects' ->
    exists bos,
      objects' = objects ++ bos /\
      List.length bos = List.length archs /\
      forall i arch bo,
        nth_error archs i = Some arch -> nth_error bos i = Some bo ->
        exists ri ri',
          Reader.dev ri = Reader.dev r /\
          decodeSlice (fst arch) (snd arch) ri = Ok bo ri'.
Proof.
  induction archs as [|a archs IH]; intros objects objects' r H;
    cbn [parseArchs] in H.
  - injection H as <-. exists []. rewrite app_nil_r.
    repeat split. intros [|i] arch bo Hi; discriminate.
  - destruct (parseHeader (fst a) (snd a) objects r) as [objs1 r1| | |] eqn:Hp;
      try discriminate.
    pose proof (keepsDev_parseHeader _ _ _ _ _ _ Hp) as Hdev.
    unfold parseHeader in Hp.
    apply bind_Ok in Hp as (bo0 & r2 & Hd & Hp). apply ret_Ok in Hp as [<- <-].
    apply IH in H as (bos & -> & Hlen & Hnth).
    exists (bo0 :: bos). rewrite <- app_assoc. cbn [app List.length].
    repeat split; [lia|].
    intros [|i] arch bo Hi Hb; cbn [nth_error] in Hi, Hb.
    + injection Hi as <-. injection Hb as <-. exists r, r2. auto.
    + destruct (Hnth i arch bo Hi Hb) as (ri & ri' & Hdi & Hdec).
      exists ri, ri'. split; [congruence | exact Hdec].
Qed.

(** C5: when the first four bytes of the input are a universal-binary
    magic and [parse] succeeds, the decoder has read, in big-endian order,
    the architecture count at offset 4 and one 20-byte record per
    architecture from offset 8 on, and has appended exactly one binary
    object per record, in order. The object of record [i] is decoded at
    the file offset held in the third word of the record; its bit-width,
    byte order and CPU type are those of the slice's own header (the magic
    at that offset and the word behind it), and the two CPU words of the
    record play no part. *)
Theorem fat_fanout (f : list byte) (objects objects' : list BinaryObject) :
  In (uintAt 4 true f 0) [0xCAFEBABE; 0xBEBAFECA] ->
  parse (Some f) objects = Returned true objects' ->
  exists bos,
    objects' = objects ++ bos /\
    Z.of_nat (List.length bos) = uintAt 4 false f 4 /\
    forall i bo, nth_error bos i = Some bo ->
      let offset := uintAt 4 false f (8 + 20 * Z.of_nat i + 8) in
      let magic := uintAt 4 true f offset in
      let le := snd (classifyMagic magic) in
      systemBits bo = fst (classifyMagic magic) /\
      littleEndian bo = le /\
      cpuType bo = cpuTypeOf (uintAt 4 le f (offset + 4)).
Proof.
  intros Hmagic H. cbn [parse] in H.
  destruct (getUInt32 (Reader.open f)) as [magic r| | |] eqn:Hg;
    try discriminate.
  apply checked_Ok in Hg as [Hm ->]; [|lia].
  cbn [Reader.open Reader.dev Reader.pos Reader.littleEndian] in *.
  rewrite <- Hm in Hmagic.
  assert (isUniversalMagic magic = true) as Hfat.
  { cbn [In] in Hmagic. apply orb_true_iff. rewrite !Z.eqb_eq.
    intuition congruence. }
  rewrite Hfat in H. replace (0 + 4) with 4 in H by lia.
  destruct (readFatHeader (Reader.mk f 4 true)) as [archs r1| | |] eqn:Hfh;
    try discriminate.
  apply readFatHeader_Ok in Hfh as (Hlen & Hdev & Harch).
  apply parseArchs_true in H as (bos & -> & Hlb & Hnth).
  exists bos. split; [reflexivity|]. split; [congruence|].
  intros i bo Hb.
  assert (i < List.length archs)%nat as Hi.
  { rewrite <- Hlb. apply nth_error_Some. congruence. }
  destruct (nth_error archs i) as [arch|] eqn:Ha;
    [|apply nth_error_None in Ha; lia].
  destruct (Hnth i arch bo Ha Hb) as (ri & ri' & Hdi & Hdec).
  rewrite (Harch i arch Ha) in Hdec. cbn [fst snd] in Hdec.
  apply decodeSlice_Ok in Hdec
    as (hdr & r0 & st & sy & dy & r2 & secs & sy' & dy' & Hh & _ & _ & _ & _ & ->).
  apply readHeader_Ok in Hh as (Hbits & Hle & Hcpu & _).
  rewrite Hdi, Hdev in *. cbn [systemBits littleEndian cpuType].
  auto.
Qed.

Lemma fat_fanout_witness :
  exists bo1 bo2,
    parse (Some fatFile) [] = Returned true [bo1; bo2] /\
    (systemBits bo1, littleEndian bo1, cpuType bo1) = (32, true, X86) /\
    (systemBits bo2, littleEndian bo2, cpuType bo2) = (64, false, PowerPC_64).
Proof.
  assert (E : parse (Some fatFile) []
              = Returned true
                  [mkBinaryObject 32 true X86 I386 Execute [] [] [];
                   mkBinaryObject 64 false PowerPC_64 I386 Execute [] [] []])
    by (vm_compute; reflexivity).
  destruct (fat_fanout fatFile [] _ ltac:(vm_compute; auto) E)
    as (bos & Hb & _ & Hnth).
  cbn [app] in Hb. subst bos.
  pose proof (Hnth 0%nat _ eq_refl) as H1.
  pose proof (Hnth 1%nat _ eq_refl) as H2.
  do 2 eexists. split; [exact E|].
  destruct H1 as (A1 & B1 & C1). destruct H2 as (A2 & B2 & C2).
  rewrite A1, B1, C1, A2, B2, C2. split; vm_compute; reflexivity.
Defined.

(** ** Failure and the object list *)

Lemma parseArchs_app (done_ rest : list (Z * Z)) :
  forall (objects bos : list BinaryObject) (r r' : Reader.t),
    decoded done_ r bos r' ->
    parseArchs (done_ ++ rest) objects r
    = parseArchs rest (objects ++ bos) r'.
Proof.
  induction done_ as [|a done_ IH]; intros objects bos r r' Hd;
    inversion Hd; subst; cbn [app parseArchs].
  - rewrite app_nil_r. reflexivity.
  - unfold parseHeader at 1, bind.
    match goal with H : decodeSlice _ _ r = _ |- _ => rewrite H end.
    cbn [ret]. erewrite IH by eassumption.
    rewrite <- app_assoc. reflexivity.
Qed.

(** C2, as the code has it: when a checked fixed-width read fails while a
    slice is decoded, [parse] returns false, and the failing slice and the
    slices after it add no binary object; but nothing is discarded: the
    objects of the slices completed before it in the same call stay in the
    object list. For a single-architecture input, whose one slice is
    decoded at offset 0, this leaves the list as it was. *)
Theorem failed_slice_keeps_earlier_objects (f : list byte)
    (objects bos : list BinaryObject) (magic off sz : Z)
    (archs done_ rest : list (Z * Z)) (r0 r1 r2 : Reader.t) :
  getUInt32 (Reader.open f) = Ok magic r0 ->
  (isUniversalMagic magic = true /\ readFatHeader r0 = Ok archs r1) \/
  (isUniversalMagic magic = false /\ archs = [(0, 0)] /\ r1 = r0) ->
  archs = done_ ++ (off, sz) :: rest ->
  decoded done_ r1 bos r2 ->
  decodeSlice off sz r2 = Failed ->
  parse (Some f) objects = Returned false (objects ++ bos).
Proof.
  intros Hg Hkind Harchs Hdone Hfail. cbn [parse]. rewrite Hg.
  assert (Hloop : parseArchs archs objects r1
                  = Returned false (objects ++ bos)).
  { subst archs. rewrite (parseArchs_app _ _ _ _ _ _ Hdone).
    cbn [parseArchs fst snd]. unfold parseHeader, bind. rewrite Hfail.
    reflexivity. }
  destruct Hkind as [[Hu Hfh]|(Hu & Ha & ->)]; rewrite Hu.
  - rewrite Hfh. exact Hloop.
  - subst archs. cbn [parseArchs fst snd] in Hloop.
    destruct (parseHeader 0 0 objects r0) as [objs r'| | |];
      try discriminate; congruence.
Qed.

Lemma failed_slice_keeps_earlier_objects_witness :
  parse (Some truncatedFatFile) []
  = Returned false ([] ++ [mkBinaryObject 32 true X86 I386 Execute [] [] []]).
Proof.
  eapply (failed_slice_keeps_earlier_objects truncatedFatFile [] _ _ 76 32
            _ [(48, 28)] []).
  - vm_compute. reflexivity.
  - left. split; vm_compute; reflexivity.
  - reflexivity.
  - eapply decoded_cons; [vm_compute; reflexivity | apply decoded_nil].
  - vm_compute. reflexivity.
Defined.

(** C2 fails as stated, in two ways. Decoding [truncatedFatFile] runs out
    of bytes in the second slice and [parse] returns false, yet the object
    of the first slice is still in the list. And in [shortHeader64] the
    read of the reserved header word runs out of bytes, its [ok] flag is
    not looked at, and [parse] returns true. *)
Lemma failure_does_not_discard :
  parse (Some truncatedFatFile) []
  = Returned false [mkBinaryObject 32 true X86 I386 Execute [] [] []] /\
  fst (Reader.getUInt 4 (Reader.mk shortHeader64 28 true)) = None /\
  parse (Some shortHeader64) []
  = Returned true [mkBinaryObject 64 true X86_64 I386 Execute [] [] []].
Proof. repeat split; vm_compute; reflexivity. Qed.

(** ** Two runs over the same file *)





(** ** The symbol tables *)

(** A loop that reads a table of fixed-size entries: when every turn
    appends the entry found at the reader's position and moves the
    position by [esz], the table read by [n] turns holds the [n] entries
    at [p], [p + esz], [p + 2 * esz], ... *)
Lemma repeatM_table {S E} (tbl : S -> list E) (body : S -> M S)
    (d : list byte) (l : bool) (esz : Z) (entryAt : Z -> E) :
  (forall st r st' r',
      Reader.dev r = d -> Reader.littleEndian r = l ->
      body st r = Ok st' r' ->
      tbl st' = tbl st ++ [entryAt (Reader.pos r)] /\
      Reader.dev r' = d /\ Reader.littleEndian r' = l /\
      Reader.pos r' = Reader.pos r + esz) ->
  forall n st r st' r',
    Reader.dev r = d -> Reader.littleEndian r = l ->
    repeatM n body st r = Ok st' r' ->
    exists new,
      tbl st' = tbl st ++ new /\
      List.length new = n /\
      (forall i, (i < n)%nat ->
         nth_error new i
         = Some (entryAt (Reader.pos r + esz * Z.of_nat i))) /\
      Reader.dev r' = d /\ Reader.littleEndian r' = l /\
      Reader.pos r' = Reader.pos r + esz * Z.of_nat n.
Proof.
  intros Hbody. induction n as [|n IH]; intros st r st' r' Hd Hl H.
  - apply ret_Ok in H as [<- <-]. exists []. rewrite app_nil_r.
    repeat split; try assumption; [intros i Hi; lia | cbn; lia].
  - cbn [repeatM] in H. apply bind_Ok in H as (st1 & r1 & H1 & H2).
    destruct (Hbody _ _ _ _ Hd Hl H1) as (Ht & Hd1 & Hl1 & Hp1).
    destruct (IH _ _ _ _ Hd1 Hl1 H2) as (new & Hn & Hlen & Hnth & Hd' & Hl' & Hp').
    exists (entryAt (Reader.pos r) :: new).
    rewrite Hn, Ht, <- app_assoc. cbn [app List.length].
    repeat split; try assumption; [lia | | lia].
    intros [|i] Hi; cbn [nth_error].
    + do 2 f_equal. lia.
    + rewrite Hnth by lia. do 2 f_equal. lia.
Qed.

Lemma getWord_Ok (bits : Z) (r r' : Reader.t) (v : Z) :
  getWord bits r = Ok v r' ->
  v = uintAt (wordBytes bits) (Reader.littleEndian r) (Reader.dev r)
        (Reader.pos r) /\
  r' = Reader.mk (Reader.dev r) (Reader.pos r + wordBytes bits)
                 (Reader.littleEndian r).
Proof.
  unfold getWord, wordBytes. destruct (bits =? 32); intros H;
    apply checked_Ok in H; (exact H || lia).
Qed.

Lemma readSymbol_Ok (bits : Z) (acc acc' : SymbolTable * Z)
    (r r' : Reader.t) :
  readSymbol bits acc r = Ok acc' r' ->
  fst acc' = fst acc ++
    [newSymbolEntry
       (uintAt 4 (Reader.littleEndian r) (Reader.dev r) (Reader.pos r))
       (uintAt (wordBytes bits) (Reader.littleEndian r) (Reader.dev r)
               (Reader.pos r + 8))] /\
  snd acc' = wrap32 (snd acc + (8 + wordBytes bits)) /\
  r' = Reader.mk (Reader.dev r) (Reader.pos r + (8 + wordBytes bits))
                 (Reader.littleEndian r).
Proof.
  intros H. unfold readSymbol in H.
  apply bind_Ok in H as (p & r0 & H0 & H). inversion H0; subst p r0; clear H0.
  apply bind_Ok in H as (index & r1 & H1 & H).
  apply checked_Ok in H1 as [Hi ->]; [|lia].
  apply bind_Ok in H as (v2 & r2 & H2 & H).
  apply checked_Ok in H2 as [_ ->]; [|lia].
  apply bind_Ok in H as (v3 & r3 & H3 & H).
  apply checked_Ok in H3 as [_ ->]; [|lia].
  apply bind_Ok in H as (v4 & r4 & H4 & H).
  apply checked_Ok in H4 as [_ ->]; [|lia].
  apply bind_Ok in H as (value & r5 & H5 & H).
  apply getWord_Ok in H5 as [Hv ->].
  apply bind_Ok in H as (p' & r6 & H6 & H). inversion H6; subst p' r6; clear H6.
  apply ret_Ok in H as [<- <-].
  cbn [Reader.dev Reader.pos Reader.littleEndian fst snd] in *.
  subst index value.
  replace (Reader.pos r + 4 + 1 + 1 + 2) with (Reader.pos r + 8) by lia.
  repeat split; f_equal; lia.
Qed.

Lemma readDynSymbol_Ok (acc acc' : SymbolTable * Z) (r r' : Reader.t) :
  readDynSymbol acc r = Ok acc' r' ->
  fst acc' = fst acc ++
    [newSymbolEntry
       (uintAt 4 (Reader.littleEndian r) (Reader.dev r) (Reader.pos r)) 0] /\
  snd acc' = wrap32 (snd acc + 4) /\
  r' = Reader.mk (Reader.dev r) (Reader.pos r + 4) (Reader.littleEndian r).
Proof.
  intros H. unfold readDynSymbol in H.
  apply bind_Ok in H as (p & r0 & H0 & H). inversion H0; subst p r0; clear H0.
  apply bind_Ok in H as (num & r1 & H1 & H).
  apply checked_Ok in H1 as [Hi ->]; [|lia].
  apply bind_Ok in H as (p' & r6 & H6 & H). inversion H6; subst p' r6; clear H6.
  apply ret_Ok in H as [<- <-].
  cbn [Reader.dev Reader.pos Reader.littleEndian fst snd] in *.
  subst num. repeat split. f_equal. lia.
Qed.

(** The symbol-table pass: the entries are the records found from file
    position [symoff] on; the base offset of the slice enters the offset
    of the Symbol Table section only. *)
Lemma readSymbolTable_Ok (bits offset : Z) (st st' : LoadState)
    (r r' : Reader.t) (syms : SymbolTable) :
  0 < symnum st ->
  readSymbolTable bits offset st r = Ok (syms, st') r' ->
  List.length syms = Z.to_nat (symnum st) /\
  (forall i, (i < Z.to_nat (symnum st))%nat ->
     nth_error syms i
     = Some (newSymbolEntry
               (uintAt 4 (Reader.littleEndian r) (Reader.dev r)
                  (symoff st + (8 + wordBytes bits) * Z.of_nat i))
               (uintAt (wordBytes bits) (Reader.littleEndian r) (Reader.dev r)
                  (symoff st + (8 + wordBytes bits) * Z.of_nat i + 8)))) /\
  (exists symsize,
     st' = addSection (newSection SectionType.Symbols "Symbol Table"
                         (symoff st) symsize (add32 offset (symoff st))) st) /\
  Reader.dev r' = Reader.dev r /\
  Reader.littleEndian r' = Reader.littleEndian r.
Proof.
  intros Hpos H. unfold readSymbolTable in H.
  apply Z.ltb_lt in Hpos. rewrite Hpos in H.
  apply bind_Ok in H as (u & r0 & H0 & H). inversion H0; subst u r0; clear H0.
  apply bind_Ok in H as (res & r1 & Hloop & H).
  apply ret_Ok in H as [H <-]. injection H as <- <-.
  eapply (repeatM_table (E := SymbolEntry) (@fst SymbolTable Z)
            (readSymbol bits) (Reader.dev r)
            (Reader.littleEndian r) (8 + wordBytes bits)
            (fun p => newSymbolEntry
               (uintAt 4 (Reader.littleEndian r) (Reader.dev r) p)
               (uintAt (wordBytes bits) (Reader.littleEndian r)
                  (Reader.dev r) (p + 8))))
    in Hloop; [| |reflexivity|reflexivity].
  - destruct Hloop as (new & Hn & Hlen & Hnth & Hd & Hl & _).
    cbn [fst app] in Hn. rewrite Hn.
    cbn [Reader.seek Reader.pos] in Hnth.
    repeat split; try assumption. eexists. reflexivity.
  - intros s x s' x' Hd Hl Hb. apply readSymbol_Ok in Hb as (Ht & _ & ->).
    rewrite Ht, Hd, Hl. cbn [Reader.dev Reader.pos Reader.littleEndian].
    repeat split.
Qed.

Lemma readDynSymbolTable_Ok (offset : Z) (st st' : LoadState)
    (r r' : Reader.t) (dyns : SymbolTable) :
  0 < indirsymnum st ->
  readDynSymbolTable offset st r = Ok (dyns, st') r' ->
  List.length dyns = Z.to_nat (indirsymnum st) /\
  (forall i, (i < Z.to_nat (indirsymnum st))%nat ->
     nth_error dyns i
     = Some (newSymbolEntry
               (uintAt 4 (Reader.littleEndian r) (Reader.dev r)
                  (indirsymoff st + 4 * Z.of_nat i)) 0)) /\
  (exists dynsymsize,
     st' = addSection (newSection SectionType.DynSymbols
                         "Dynamic Symbol Table" (indirsymoff st) dynsymsize
                         (add32 offset (indirsymoff st))) st) /\
  Reader.dev r' = Reader.dev r /\
  Reader.littleEndian r' = Reader.littleEndian r.
Proof.
  intros Hpos H. unfold readDynSymbolTable in H.
  apply Z.ltb_lt in Hpos. rewrite Hpos in H.
  apply bind_Ok in H as (u & r0 & H0 & H). inversion H0; subst u r0; clear H0.
  apply bind_Ok in H as (res & r1 & Hloop & H).
  apply ret_Ok in H as [H <-]. injection H as <- <-.
  eapply (repeatM_table (E := SymbolEntry) (@fst SymbolTable Z)
            readDynSymbol (Reader.dev r)
            (Reader.littleEndian r) 4
            (fun p => newSymbolEntry
               (uintAt 4 (Reader.littleEndian r) (Reader.dev r) p) 0))
    in Hloop; [| |reflexivity|reflexivity].
  - destruct Hloop as (new & Hn & Hlen & Hnth & Hd & Hl & _).
    cbn [fst app] in Hn. rewrite Hn.
    cbn [Reader.seek Reader.pos] in Hnth.
    repeat split; try assumption. eexists. reflexivity.
  - intros s x s' x' Hd Hl Hb. apply readDynSymbol_Ok in Hb as (Ht & _ & ->).
    rewrite Ht, Hd, Hl. cbn [Reader.dev Reader.pos Reader.littleEndian].
    repeat split.
Qed.

(** Without a symbol-table command the passes read nothing. *)
Lemma readSymbolTable_none (bits offset : Z) (st : LoadState) (r : Reader.t) :
  symnum st <= 0 -> readSymbolTable bits offset st r = Ok ([], st) r.
Proof.
  intros H. unfold readSymbolTable. apply Z.ltb_ge in H. rewrite H.
  reflexivity.
Qed.

Lemma readDynSymbolTable_none (offset : Z) (st : LoadState) (r : Reader.t) :
  indirsymnum st <= 0 -> readDynSymbolTable offset st r = Ok ([], st) r.
Proof.
  intros H. unfold readDynSymbolTable. apply Z.ltb_ge in H. rewrite H.
  reflexivity.
Qed.



(** The effect on a universal binary: the slice [stubsFile], decoded on
    its own, has the symbols "foo" (value 0x10) and "bar" (value 0x20);
    placed at offset 28 of [fatStubsFile] its symbol entries are read at
    file position 256, which is position 228 of the slice, and come out
    differently, although the Symbol Table section of the same object is
    registered at 28 + 256. *)
Lemma fat_slice_symbols_misread :
  (exists bo, parse (Some stubsFile) [] = Returned true [bo] /\
     symbolTable bo = [mkSymbolEntry 0 0x10 "foo"; mkSymbolEntry 4 0x20 "bar"]) /\
  (exists bo, parse (Some fatStubsFile) [] = Returned true [bo] /\
     symbolTable bo = [mkSymbolEntry 0 4 "foo"; mkSymbolEntry 0 0 "foo"] /\
     option_map secOffset (getSection SectionType.Symbols (sections bo))
     = Some (28 + 256)).
Proof.
  split; eexists; (split; [vm_compute; reflexivity|]); repeat split.
Qed.

(** ** Resolution of names *)

Lemma describeSlice_Ok (bits offset ncmds : Z) (r r' : Reader.t)
    (st : LoadState) (symTable dynsymTable : SymbolTable) :
  describeSlice bits offset ncmds r = Ok (st, symTable, dynsymTable) r' ->
  exists st0 r0 st1 r1,
    loadCommands bits offset (Z.to_nat ncmds) initLoadState r = Ok st0 r0 /\
    readSymbolTable bits offset st0 r0 = Ok (symTable, st1) r1 /\
    readDynSymbolTable offset st1 r1 = Ok (dynsymTable, st) r'.
Proof.
  intros H. unfold describeSlice in H.
  apply bind_Ok in H as (st0 & r0 & H0 & H).
  apply bind_Ok in H as ([sy st1] & r1 & H1 & H).
  apply bind_Ok in H as ([dy st2] & r2 & H2 & H).
  apply ret_Ok in H as [H <-]. cbn [fst snd] in *. injection H as <- <- <-.
  exists st0, r0, st1, r1. auto.
Qed.

(** The two table passes leave the counts of the load commands alone, and
    read as many entries as the counts say. *)
Lemma table_passes_counts (bits offset : Z) (st0 st1 st : LoadState)
    (r0 r1 r' : Reader.t) (symTable dynsymTable : SymbolTable) :
  readSymbolTable bits offset st0 r0 = Ok (symTable, st1) r1 ->
  readDynSymbolTable offset st1 r1 = Ok (dynsymTable, st) r' ->
  symnum st = symnum st0 /\ indirsymnum st = indirsymnum st0 /\
  (0 < symnum st -> Z.of_nat (List.length symTable) = symnum st) /\
  Forall (fun e => symString e = EmptyString /\ symValue e = 0) dynsymTable.
Proof.
  intros Hs Hd.
  assert (symnum st1 = symnum st0 /\ indirsymnum st1 = indirsymnum st0 /\
          (0 < symnum st0 -> Z.of_nat (List.length symTable) = symnum st0))
    as (E1 & E2 & L).
  { destruct (Z_lt_le_dec 0 (symnum st0)) as [Hp|Hp].
    - apply (readSymbolTable_Ok _ _ _ _ _ _ _ Hp) in Hs
        as (Hlen & _ & (symsize & ->) & _).
      repeat split. intros _. rewrite Hlen. lia.
    - rewrite readSymbolTable_none in Hs by assumption.
      inversion Hs; subst. repeat split. lia. }
  destruct (Z_lt_le_dec 0 (indirsymnum st1)) as [Hp|Hp].
  - apply (readDynSymbolTable_Ok _ _ _ _ _ _ Hp) in Hd
      as (Hlen & Hnth & (dynsymsize & ->) & _).
    cbn [addSection symnum indirsymnum]. rewrite E1.
    repeat split; try assumption.
    apply Forall_forall. intros e Hin.
    apply In_nth_error in Hin as [i Hi].
    assert (i < Z.to_nat (indirsymnum st1))%nat as Hlt.
    { rewrite <- Hlen. apply nth_error_Some. congruence. }
    rewrite (Hnth i Hlt) in Hi. injection Hi as <-. split; reflexivity.
  - rewrite readDynSymbolTable_none in Hd by assumption.
    inversion Hd; subst. rewrite E1. repeat split; auto.
Qed.

Lemma resolveStrings_length (data : list byte) (symbols symbols' : SymbolTable) :
  resolveStrings data symbols = Some symbols' ->
  List.length symbols' = List.length symbols.
Proof.
  revert symbols'. induction symbols as [|s symbols IH]; intros symbols' H;
    cbn [resolveStrings] in H.
  - injection H as <-. reflexivity.
  - destruct (scanName data (symIndex s)); [|discriminate].
    destruct (resolveStrings data symbols) as [rest'|]; [|discriminate].
    injection H as <-. cbn [List.length]. f_equal. apply IH. reflexivity.
Qed.

Lemma mergeStrings_length (symnum : Z) (secs : list Section)
    (symTable symTable' : SymbolTable) :
  mergeStrings symnum secs symTable = Some symTable' ->
  List.length symTable' = List.length symTable.
Proof.
  unfold mergeStrings. destruct (0 <? symnum);
    [destruct (getSection SectionType.String secs)|]; intros H;
    try (injection H as <-; reflexivity).
  eapply resolveStrings_length; eassumption.
Qed.

(** The loop over the dynamic symbols, entry by entry. *)
Lemma resolveDynSymbols_nth (stubAddr symnum : Z) (symbols : SymbolTable)
    (dynsymbols : SymbolTable) :
  forall (h : Z) (res : SymbolTable),
    resolveDynSymbols stubAddr symnum symbols h dynsymbols = Some res ->
    forall j e, nth_error res j = Some e ->
      exists e0,
        nth_error dynsymbols j = Some e0 /\
        let idx := toInt32 (symIndex e0) in
        (0 <= idx < symnum ->
         exists s,
           nth_error symbols (Z.to_nat idx) = Some s /\
           e = setValue (add64 stubAddr ((h + Z.of_nat j) * 6))
                 (setString (symString s) e0)) /\
        (~ (0 <= idx < symnum) -> e = e0).
Proof.
  induction dynsymbols as [|d dynsymbols IH]; intros h res H j e Hj;
    cbn [resolveDynSymbols] in H.
  - injection H as <-. destruct j; discriminate.
  - destruct (resolveDynSymbols stubAddr symnum symbols (h + 1) dynsymbols)
      as [rest'|] eqn:Hrest; [|discriminate].
    destruct ((0 <=? toInt32 (symIndex d)) && (toInt32 (symIndex d) <? symnum))
      eqn:Hrange.
    + apply andb_true_iff in Hrange as [Hlo Hhi].
      apply Z.leb_le in Hlo. apply Z.ltb_lt in Hhi.
      destruct (nth_error symbols (Z.to_nat (toInt32 (symIndex d))))
        as [s|] eqn:Hs; [|discriminate].
      injection H as <-. destruct j as [|j]; cbn [nth_error] in Hj |- *.
      * injection Hj as <-. exists d. split; [reflexivity|]. cbv zeta. split.
        -- intros _. exists s. split; [exact Hs|].
           do 2 f_equal. lia.
        -- intros Hn. lia.
      * destruct (IH _ _ Hrest j e Hj) as (e0 & He0 & Hin & Hout).
        exists e0. split; [exact He0|]. cbv zeta in *. split; [|exact Hout].
        intros Hr. destruct (Hin Hr) as (s' & Hs' & ->). exists s'.
        split; [exact Hs'|]. do 2 f_equal. lia.
    + assert (~ (0 <= toInt32 (symIndex d) < symnum)) as Hn.
      { intros [Hlo Hhi]. apply Z.leb_le in Hlo. apply Z.ltb_lt in Hhi.
        rewrite Hlo, Hhi in Hrange. discriminate. }
      injection H as <-. destruct j as [|j]; cbn [nth_error] in Hj |- *.
      * injection Hj as <-. exists d. split; [reflexivity|]. cbv zeta. split.
        -- intros Hr. contradiction.
        -- reflexivity.
      * destruct (IH _ _ Hrest j e Hj) as (e0 & He0 & Hin & Hout).
        exists e0. split; [exact He0|]. cbv zeta in *. split; [|exact Hout].
        intros Hr. destruct (Hin Hr) as (s' & Hs' & ->). exists s'.
        split; [exact Hs'|]. do 2 f_equal. lia.
Qed.

(** C4: in a decoded slice that has a Symbol Stubs section and a non-empty
    primary symbol table of [symnum] entries, the dynamic symbol at
    position [h] whose index (as the [int] the code compares) lies in
    [0, symnum) carries the name of the primary symbol with that index and
    the address [stubs address + h * 6], computed in unsigned 64-bit
    arithmetic; a dynamic symbol whose index lies outside that range keeps
    an empty name and the address zero, and the slice is decoded all the
    same. *)
Theorem dynamic_symbols_resolved (offset size : Z) (r r' : Reader.t)
    (bo : BinaryObject) (stubs : Section) (h : nat) (e : SymbolEntry) :
  decodeSlice offset size r = Ok bo r' ->
  getSection SectionType.SymbolStubs (sections bo) = Some stubs ->
  symbolTable bo <> [] ->
  nth_error (dynSymbolTable bo) h = Some e ->
  let idx := toInt32 (symIndex e) in
  let symnum := Z.of_nat (List.length (symbolTable bo)) in
  (0 <= idx < symnum ->
   exists s,
     nth_error (symbolTable bo) (Z.to_nat idx) = Some s /\
     symString e = symString s /\
     symValue e = add64 (secAddress stubs) (Z.of_nat h * 6)) /\
  (~ (0 <= idx < symnum) ->
   symString e = EmptyString /\ symValue e = 0).
Proof.
  intros Hdec Hstubs Hne Hnth.
  apply decodeSlice_Ok in Hdec
    as (hdr & r0 & st & sy & dy & r1 & secs & sy' & dy' & _ & Hdesc & _
        & Hms & Hmd & ->).
  cbn [sections symbolTable dynSymbolTable] in *.
  apply describeSlice_Ok in Hdesc as (st0 & r2 & st1 & r3 & _ & Hs & Hd).
  destruct (table_passes_counts _ _ _ _ _ _ _ _ _ _ Hs Hd)
    as (_ & _ & Hlen & Hfresh).
  destruct (0 <? symnum st) eqn:Hsym; [|contradiction].
  apply Z.ltb_lt in Hsym. specialize (Hlen Hsym).
  destruct (0 <? indirsymnum st) eqn:Hind;
    [|destruct h; discriminate].
  cbn [andb] in Hnth.
  unfold mergeDynSymbols in Hmd.
  apply Z.ltb_lt in Hsym. rewrite Hsym, Hind, Hstubs in Hmd. cbn [andb] in Hmd.
  destruct (resolveDynSymbols_nth _ _ _ _ _ _ Hmd h e Hnth)
    as (e0 & He0 & Hin & Hout).
  cbv zeta in *.
  rewrite (mergeStrings_length _ _ _ _ Hms), Hlen.
  rewrite Forall_forall in Hfresh.
  destruct (Hfresh e0 (nth_error_In _ _ He0)) as [Hname Hval].
  split.
  - intros Hr.
    assert (symIndex e = symIndex e0) as Hi.
    { destruct (Z_lt_le_dec (toInt32 (symIndex e0)) 0) as [Hneg|Hnn].
      - rewrite Hout by lia. reflexivity.
      - destruct (Z_lt_le_dec (toInt32 (symIndex e0)) (symnum st)) as [Hlt|Hge].
        + destruct (Hin ltac:(lia)) as (s & _ & ->). reflexivity.
        + rewrite Hout by lia. reflexivity. }
    rewrite Hi in Hr |- *. destruct (Hin Hr) as (s & Hs' & ->).
    exists s. cbn [setValue setString symString symValue].
    split; [exact Hs'|]. split; [reflexivity|]. f_equal; lia.
  - intros Hr.
    assert (e = e0) as ->.
    { destruct (Z_lt_le_dec (toInt32 (symIndex e0)) 0) as [Hneg|Hnn].
      - apply Hout. lia.
      - destruct (Z_lt_le_dec (toInt32 (symIndex e0)) (symnum st)) as [Hlt|Hge].
        + destruct (Hin ltac:(lia)) as (s & _ & ->).
          exfalso. apply Hr. cbn [setValue setString symIndex]. lia.
        + apply Hout. lia. }
    auto.
Qed.

Lemma dynamic_symbols_resolved_witness :
  exists bo r' stubs e s,
    decodeSlice 0 0 (Reader.mk stubsFile 4 true) = Ok bo r' /\
    getSection SectionType.SymbolStubs (sections bo) = Some stubs /\
    secAddress stubs = 0x1000 /\
    nth_error (dynSymbolTable bo) 1 = Some e /\
    nth_error (symbolTable bo) (Z.to_nat (toInt32 (symIndex e))) = Some s /\
    symString e = symString s /\
    symString e = "foo"%string /\
    symValue e = add64 0x1000 (1 * 6) /\
    symValue e = 0x1006.
Proof.
  eassert (Hdec : decodeSlice 0 0 (Reader.mk stubsFile 4 true) = Ok _ _)
    by (vm_compute; reflexivity).
  match type of Hdec with
  | _ = Ok ?b ?r =>
      pose proof (dynamic_symbols_resolved 0 0 _ r b
                    (mkSection SectionType.SymbolStubs "Symbol Stubs"
                       0x1000 24 304 (zeros 24))
                    1 (mkSymbolEntry 0 0x1006 "foo") Hdec eq_refl
                    ltac:(discriminate) eq_refl) as [Hin _]
  end.
  assert (Hr : 0 <= 0 < 2) by lia.
  destruct (Hin Hr) as (s & Hs & Hname & Hval).
  do 4 eexists. exists s.
  split; [exact Hdec|].
  split; [reflexivity|]. split; [reflexivity|]. split; [reflexivity|].
  split; [exact Hs|]. split; [exact Hname|]. split; [reflexivity|].
  split; [exact Hval|reflexivity].
Defined.

Lemma add64_small (a b : Z) :
  0 <= a -> 0 <= b -> a + b < 2 ^ 64 -> add64 a b = a + b.
Proof. intros Ha Hb Hs. unfold add64, wrap64. apply Z.mod_small. lia. Qed.

Lemma toInt32_small (z : Z) : 0 <= z < 2 ^ 31 -> toInt32 z = z.
Proof.
  intros Hz. unfold toInt32, wrap32. rewrite Z.mod_small by lia.
  destruct (z <? 2 ^ 31) eqn:E; [reflexivity|]. apply Z.ltb_ge in E. lia.
Qed.

Lemma toInt32_large (z : Z) : 2 ^ 31 <= z < 2 ^ 32 -> toInt32 z = z - 2 ^ 32.
Proof.
  intros Hz. unfold toInt32, wrap32. rewrite Z.mod_small by lia.
  destruct (z <? 2 ^ 31) eqn:E; [|reflexivity]. apply Z.ltb_lt in E. lia.
Qed.

Lemma untilNul_throughNul (l : list byte) :
  untilNul (throughNul l) = untilNul l.
Proof.
  induction l as [|c l IH]; cbn [throughNul untilNul]; [reflexivity|].
  destruct (Byte.eqb c x00) eqn:E; cbn [untilNul]; rewrite E;
    [reflexivity | f_equal; exact IH].
Qed.

Lemma dropZ_all (n : Z) (l : list byte) : lenZ l <= n -> dropZ n l = [].
Proof.
  revert n. induction l as [|c l IH]; intros n Hn; cbn [dropZ];
    [reflexivity|].
  rewrite lenZ_cons in Hn. pose proof (lenZ_nonneg l).
  destruct (n <=? 0) eqn:E; [apply Z.leb_le in E; lia|].
  apply IH. lia.
Qed.

(** The scan of lines 807-813 for an index that is not negative as an
    [int]: the name is made of the bytes from the index up to the first
    zero byte, or up to the end of the string table. *)
Lemma scanName_name (data : list byte) (index : Z) (tmp : list byte) :
  scanName data index = Some tmp ->
  0 <= toInt32 index /\
  fromUtf8 tmp = fromUtf8 (dropZ (toInt32 index) data).
Proof.
  unfold scanName. destruct (toInt32 index <? 0) eqn:E; [discriminate|].
  apply Z.ltb_ge in E. intros H. injection H as <-. split; [exact E|].
  unfold fromUtf8. rewrite untilNul_throughNul. reflexivity.
Qed.

(** An index that is negative as an [int] makes the scan read in front of
    the string table. *)
Lemma scanName_negative (data : list byte) (index : Z) :
  toInt32 index < 0 -> scanName data index = None.
Proof.
  intros H. unfold scanName. apply Z.ltb_lt in H. rewrite H. reflexivity.
Qed.

Lemma resolveStrings_nth (data : list byte) (symbols : SymbolTable) :
  forall (symbols' : SymbolTable) (i : nat) (e' : SymbolEntry),
    resolveStrings data symbols = Some symbols' ->
    nth_error symbols' i = Some e' ->
    exists e,
      nth_error symbols i = Some e /\
      0 <= toInt32 (symIndex e) /\
      e' = setString (fromUtf8 (dropZ (toInt32 (symIndex e)) data)) e.
Proof.
  induction symbols as [|s symbols IH]; intros symbols' i e' H Hi;
    cbn [resolveStrings] in H.
  - injection H as <-. destruct i; discriminate.
  - destruct (scanName data (symIndex s)) as [tmp|] eqn:Hscan; [|discriminate].
    destruct (resolveStrings data symbols) as [rest'|] eqn:Hrest;
      [|discriminate].
    injection H as <-. apply scanName_name in Hscan as [Hnn Hname].
    destruct i as [|i]; cbn [nth_error] in Hi |- *.
    + injection Hi as <-. exists s. rewrite Hname. auto.
    + eapply IH; [reflexivity | exact Hi].
Qed.

(** The names of the primary symbols of a decoded slice: each is read in
    the content of the String Table section, from the symbol's index up
    to the first zero byte or the end of the content; an index at or past
    the end gives the empty name. *)
Lemma symbol_names_resolved (offset size : Z) (r r' : Reader.t)
    (bo : BinaryObject) (strTable : Section) (i : nat) (e : SymbolEntry) :
  decodeSlice offset size r = Ok bo r' ->
  getSection SectionType.String (sections bo) = Some strTable ->
  nth_error (symbolTable bo) i = Some e ->
  0 <= toInt32 (symIndex e) /\
  symString e
  = fromUtf8 (dropZ (toInt32 (symIndex e)) (secData strTable)) /\
  (lenZ (secData strTable) <= toInt32 (symIndex e) ->
   symString e = EmptyString).
Proof.
  intros Hdec Hstr Hnth.
  apply decodeSlice_Ok in Hdec
    as (hdr & r0 & st & sy & dy & r1 & secs & sy' & dy' & _ & _ & _
        & Hms & _ & ->).
  cbn [sections symbolTable] in *.
  destruct (0 <? symnum st) eqn:Hsym; [|destruct i; discriminate].
  unfold mergeStrings in Hms. rewrite Hsym, Hstr in Hms.
  destruct (resolveStrings_nth _ _ _ _ _ Hms Hnth) as (e0 & _ & Hnn & ->).
  cbn [setString symIndex symString].
  split; [exact Hnn|]. split; [reflexivity|].
  intros Hout. rewrite dropZ_all by exact Hout. reflexivity.
Qed.

(** The example of the specification: with the string table "foo\0bar\0",
    index 0 gives "foo", index 4 gives "bar", and the index 100, past the
    end of the table, gives the empty name. *)
Lemma symbol_names_examples :
  (exists bo, parse (Some (symbolFile 0)) [] = Returned true [bo] /\
              map symString (symbolTable bo) = ["foo"%string]) /\
  (exists bo, parse (Some (symbolFile 4)) [] = Returned true [bo] /\
              map symString (symbolTable bo) = ["bar"%string]) /\
  (exists bo, parse (Some (symbolFile 100)) [] = Returned true [bo] /\
              map symString (symbolTable bo) = [EmptyString]).
Proof.
  repeat split; eexists; (split; [vm_compute; reflexivity | reflexivity]).
Qed.

(** The scan of the names reads outside the string table exactly when
    some symbol has an index that is negative as an [int]. *)
Lemma resolveStrings_None_iff (data : list byte) (symbols : SymbolTable) :
  resolveStrings data symbols = None <->
  exists e, In e symbols /\ toInt32 (symIndex e) < 0.
Proof.
  induction symbols as [|s symbols IH]; cbn [resolveStrings In].
  - split; [discriminate | intros (e & [] & _)].
  - unfold scanName at 1. destruct (toInt32 (symIndex s) <? 0) eqn:E.
    + apply Z.ltb_lt in E. split; [|reflexivity]. intros _. exists s. auto.
    + apply Z.ltb_ge in E.
      destruct (resolveStrings data symbols) as [rest'|].
      * split; [discriminate|]. intros (e & [<-|Hin] & Hneg); [lia|].
        pose proof (proj2 IH (ex_intro _ e (conj Hin Hneg))). discriminate.
      * split; [|reflexivity]. intros _.
        destruct (proj1 IH eq_refl) as (e & Hin & Hneg). exists e. auto.
Qed.

(** The loop over the dynamic symbols stays inside the symbol table when
    the table has [symnum] entries. *)
Lemma resolveDynSymbols_defined (stubAddr symnum : Z)
    (symbols dynsymbols : SymbolTable) :
  Z.of_nat (List.length symbols) = symnum ->
  forall h, resolveDynSymbols stubAddr symnum symbols h dynsymbols <> None.
Proof.
  intros Hlen. induction dynsymbols as [|d dynsymbols IH]; intros h;
    cbn [resolveDynSymbols]; [discriminate|].
  specialize (IH (h + 1)).
  destruct (resolveDynSymbols stubAddr symnum symbols (h + 1) dynsymbols)
    as [rest'|]; [|contradiction].
  destruct ((0 <=? toInt32 (symIndex d)) && (toInt32 (symIndex d) <? symnum))
    eqn:Hrange; [|discriminate].
  apply andb_true_iff in Hrange as [Hlo Hhi].
  apply Z.leb_le in Hlo. apply Z.ltb_lt in Hhi.
  destruct (nth_error symbols (Z.to_nat (toInt32 (symIndex d)))) eqn:Hn;
    [discriminate|].
  apply nth_error_None in Hn. lia.
Qed.

(** A slice with a string table and a symbol whose index is negative as
    an [int] is not decoded: the scan for the name of that symbol reads in
    front of the string table. *)
Lemma negative_index_undefined (offset size : Z) (r r0 r1 r2 : Reader.t)
    (hdr : Header) (st : LoadState) (symTable dynsymTable : SymbolTable)
    (secs : list Section) (strTable : Section) (e : SymbolEntry) :
  readHeader offset r = Ok hdr r0 ->
  describeSlice (hSystemBits hdr) offset (hNcmds hdr) r0
    = Ok (st, symTable, dynsymTable) r1 ->
  fillSections (lsSections st) r1 = Ok secs r2 ->
  0 < symnum st ->
  getSection SectionType.String secs = Some strTable ->
  In e symTable ->
  toInt32 (symIndex e) < 0 ->
  decodeSlice offset size r = Undefined.
Proof.
  intros Hh Hd Hf Hsym Hstr Hin Hneg. unfold decodeSlice.
  rewrite (bind_eq_Ok _ _ _ _ _ Hh), (bind_eq_Ok _ _ _ _ _ Hd).
  cbn [fst snd]. rewrite (bind_eq_Ok _ _ _ _ _ Hf).
  unfold bind at 1, defined at 1, mergeStrings.
  apply Z.ltb_lt in Hsym. rewrite Hsym, Hstr.
  assert (resolveStrings (secData strTable) symTable = None) as ->.
  { apply resolveStrings_None_iff. exists e. auto. }
  reflexivity.
Qed.

(** C3 does not hold of the code for every out-of-range index: the index
    0x80000000 becomes the negative [int] -2147483648, the loop condition
    [i < data.size()] holds, and [data[i]] is read in front of the string
    table instead of the name being left empty. *)
Lemma negative_string_index_reads_outside :
  toInt32 0x80000000 = -2147483648 /\
  scanName (list_byte_of_string "foo" ++ [x00]
            ++ list_byte_of_string "bar" ++ [x00]) 0x80000000 = None /\
  parse (Some (symbolFile 0x80000000)) [] = UndefinedBehaviour.
Proof. repeat split; vm_compute; reflexivity. Qed.

(** ** The base offset of a slice in the section offsets *)












Lemma byteVal_bound (b : byte) : byteVal b < 256.
Proof. destruct b; vm_compute; reflexivity. Qed.

Lemma leValue_bound (l : list byte) :
  leValue l < 256 ^ Z.of_nat (List.length l).
Proof.
  induction l as [|b l IH]; cbn [leValue List.length].
  - reflexivity.
  - rewrite Nat2Z.inj_succ, Z.pow_succ_r by lia.
    pose proof (byteVal_bound b). pose proof (byteVal_nonneg b).
    pose proof (leValue_nonneg l). lia.
Qed.

(** A 32-bit value read from the file is below 2^32, so that registering
    it with the base offset 0 stores the value itself. *)
Lemma add32_0_uint32 (le : bool) (f : list byte) (p : Z) :
  add32 0 (uintAt 4 le f p) = uintAt 4 le f p.
Proof.
  unfold add32, wrap32. rewrite Z.add_0_l. apply Z.mod_small.
  split; [apply uintAt_nonneg|].
  unfold uintAt, Reader.decode.
  set (buf := takeZ 4 (dropZ p f)).
  assert (Hlen : (List.length buf <= 4)%nat).
  { pose proof (lenZ_takeZ 4 (dropZ p f) ltac:(lia)) as L. fold buf in L.
    unfold lenZ in L. lia. }
  assert (Hb : forall l : list byte, (List.length l <= 4)%nat ->
                                     leValue l < 2 ^ 32).
  { intros l Hl. pose proof (leValue_bound l) as B.
    assert (256 ^ Z.of_nat (List.length l) <= 256 ^ 4)
      by (apply Z.pow_le_mono_r; lia).
    change (2 ^ 32) with (256 ^ 4). lia. }
  destruct le; apply Hb; [|rewrite length_rev]; exact Hlen.
Qed.




(** * Further properties of the decoder *)

(** ** Reads, as functions of the bytes that are left *)

Lemma lenZ_dropZ (n : Z) (l : list byte) :
  0 <= n -> lenZ (dropZ n l) = Z.max 0 (lenZ l - n).
Proof.
  revert n. induction l as [|c l IH]; intros n Hn; cbn [dropZ].
  - unfold lenZ; cbn. lia.
  - destruct (n <=? 0) eqn:E.
    + apply Z.leb_le in E. pose proof (lenZ_nonneg (c :: l)). lia.
    + apply Z.leb_gt in E. rewrite IH, lenZ_cons by lia. lia.
Qed.

(** A checked read, in terms of the bytes left at the reader's position. *)
Lemma checked_spec (num : Z) (r : Reader.t) :
  0 <= num ->
  checked num r
  = if lenZ (dropZ (Reader.pos r) (Reader.dev r)) <? num then Failed
    else Ok (uintAt num (Reader.littleEndian r) (Reader.dev r) (Reader.pos r))
            (Reader.mk (Reader.dev r) (Reader.pos r + num)
                       (Reader.littleEndian r)).
Proof.
  intros Hn.
  destruct (lenZ (dropZ (Reader.pos r) (Reader.dev r)) <? num) eqn:E.
  - apply checked_Failed; [exact Hn|]. apply Z.ltb_lt. exact E.
  - apply Z.ltb_ge in E.
    destruct (checked num r) as [v r'| | |] eqn:Hc.
    + apply checked_Ok in Hc as [-> ->]; [reflexivity | exact Hn].
    + apply checked_Failed in Hc; [lia | exact Hn].
    + exfalso. revert Hc. apply noExit_checked.
    + exfalso. revert Hc. unfold checked.
      destruct (Reader.getUInt num r) as [[v|] r']; discriminate.
Qed.

(** A checked read of [num > 0] bytes at position [p >= 0] of a file
    succeeds exactly when the file has [p + num] bytes. *)
Lemma checked_at (num p : Z) (f : list byte) (le : bool) :
  0 < num -> 0 <= p ->
  checked num (Reader.mk f p le)
  = if lenZ f <? p + num then Failed
    else Ok (uintAt num le f p) (Reader.mk f (p + num) le).
Proof.
  intros Hn Hp. rewrite checked_spec by lia.
  cbn [Reader.dev Reader.pos Reader.littleEndian].
  rewrite lenZ_dropZ by exact Hp. pose proof (lenZ_nonneg f).
  destruct (Z.max 0 (lenZ f - p) <? num) eqn:E1;
    destruct (lenZ f <? p + num) eqn:E2; try reflexivity;
    [apply Z.ltb_lt in E1; apply Z.ltb_ge in E2
    |apply Z.ltb_ge in E1; apply Z.ltb_lt in E2]; lia.
Qed.

(** ** Inputs that are too short *)

(** The header of a slice takes 28 readable bytes at the base offset, in a
    64-bit slice too, whose reserved word is read without a check: with
    fewer bytes [readHeader] returns false, with 28 or more it goes on. *)
Lemma readHeader_Failed_iff (offset : Z) (r : Reader.t) :
  0 <= offset ->
  (readHeader offset r = Failed <->
   lenZ (Reader.dev r) < offset + 28).
Proof.
  intros Ho. unfold readHeader, seek, setLittleEndian, getUInt32, bind.
  unfold Reader.seek, Reader.setLittleEndian.
  cbn [Reader.dev Reader.pos Reader.littleEndian].
  repeat (rewrite checked_at by lia;
          match goal with
          | |- context [if ?b then Failed else _] =>
              let E := fresh "E" in
              destruct b eqn:E;
              [apply Z.ltb_lt in E; split; [lia | reflexivity]
              |apply Z.ltb_ge in E]
          end;
          cbn [Reader.dev Reader.pos Reader.littleEndian]).
  split; [|lia].
  destruct (fst (classifyMagic _) =? 64); unfold skipUInt32, ret;
    discriminate.
Qed.

(** A file of fewer than 28 bytes that does not start with a universal
    magic is refused: [parse] returns false and appends nothing. This
    covers the empty file. *)
Theorem parse_short_input (f : list byte) (objects : list BinaryObject) :
  lenZ f < 28 ->
  isUniversalMagic (uintAt 4 true f 0) = false ->
  parse (Some f) objects = Returned false objects.
Proof.
  intros Hlen Hmagic. cbn [parse]. unfold getUInt32, Reader.open.
  rewrite checked_at by lia.
  destruct (lenZ f <? 0 + 4); [reflexivity|].
  rewrite Hmagic. unfold parseHeader, decodeSlice, bind.
  assert (readHeader 0 (Reader.mk f (0 + 4) true) = Failed) as ->.
  { apply readHeader_Failed_iff; [lia|]. cbn [Reader.dev]. lia. }
  reflexivity.
Qed.

Lemma parse_short_input_witness :
  parse (Some (zeros 27)) [] = Returned false [] /\
  parse (Some []) [] = Returned false [].
Proof.
  split; apply parse_short_input; vm_compute; reflexivity.
Defined.

(** One record of the directory of a universal binary takes 20 bytes. *)
Lemma readFatArch_at (archs : list (Z * Z)) (f : list byte) (p : Z)
    (le : bool) :
  0 <= p ->
  readFatArch archs (Reader.mk f p le)
  = if lenZ f <? p + 20 then Failed
    else Ok (archs ++ [(uintAt 4 le f (p + 8), uintAt 4 le f (p + 12))])
            (Reader.mk f (p + 20) le).
Proof.
  intros Hp. unfold readFatArch, getUInt32, bind.
  repeat (rewrite checked_at by lia;
          match goal with
          | |- context [if ?b then Failed else _] =>
              let E := fresh "E" in
              destruct b eqn:E;
              [apply Z.ltb_lt in E;
               destruct (lenZ f <? p + 20) eqn:E'; [reflexivity|];
               apply Z.ltb_ge in E'; lia
              |apply Z.ltb_ge in E]
          end).
  destruct (lenZ f <? p + 20) eqn:E'; [apply Z.ltb_lt in E'; lia|].
  unfold ret.
  replace (p + 4 + 4 + 4 + 4 + 4) with (p + 20) by lia.
  replace (p + 4 + 4 + 4) with (p + 12) by lia.
  replace (p + 4 + 4) with (p + 8) by lia.
  reflexivity.
Qed.

Lemma readFatArchs_short (n : nat) :
  forall (archs : list (Z * Z)) (f : list byte) (p : Z) (le : bool),
    0 <= p <= lenZ f ->
    lenZ f < p + 20 * Z.of_nat n ->
    repeatM n readFatArch archs (Reader.mk f p le) = Failed.
Proof.
  induction n as [|n IH]; intros archs f p le Hp Hlen.
  - lia.
  - cbn [repeatM]. unfold bind. rewrite readFatArch_at by lia.
    destruct (lenZ f <? p + 20) eqn:E; [reflexivity|].
    apply Z.ltb_ge in E. apply IH; lia.
Qed.

(** The directory of a universal binary is read as a whole before any
    slice is decoded: when the file is too short for the [nfat_arch]
    records that the count at offset 4 announces, [parse] returns false
    and appends nothing, whatever slices the file holds. *)
Theorem parse_truncated_directory (f : list byte)
    (objects : list BinaryObject) :
  isUniversalMagic (uintAt 4 true f 0) = true ->
  lenZ f < 8 + 20 * uintAt 4 false f 4 ->
  parse (Some f) objects = Returned false objects.
Proof.
  intros Hmagic Hlen. cbn [parse]. unfold getUInt32, Reader.open.
  rewrite checked_at by lia.
  destruct (lenZ f <? 0 + 4); [reflexivity|].
  rewrite Hmagic. unfold readFatHeader, setLittleEndian, bind, getUInt32.
  unfold Reader.setLittleEndian.
  cbn [Reader.dev Reader.pos Reader.littleEndian].
  rewrite checked_at by lia.
  destruct (lenZ f <? 0 + 4 + 4) eqn:E8; [reflexivity|].
  apply Z.ltb_ge in E8.
  rewrite readFatArchs_short; [reflexivity | lia |].
  rewrite Z2Nat.id by apply uintAt_nonneg. replace (0 + 4) with 4 by lia.
  lia.
Qed.

Lemma parse_truncated_directory_witness :
  parse (Some (firstn 40 fatFile)) [] = Returned false [].
Proof.
  apply parse_truncated_directory; vm_compute; reflexivity.
Defined.

(** A universal binary that announces no architecture is accepted and
    yields no binary object. *)
Theorem parse_empty_directory (f : list byte) (objects : list BinaryObject) :
  isUniversalMagic (uintAt 4 true f 0) = true ->
  8 <= lenZ f ->
  uintAt 4 false f 4 = 0 ->
  parse (Some f) objects = Returned true objects.
Proof.
  intros Hmagic Hlen Hcount. cbn [parse]. unfold getUInt32, Reader.open.
  rewrite checked_at by lia.
  destruct (lenZ f <? 0 + 4) eqn:E; [apply Z.ltb_lt in E; lia|].
  rewrite Hmagic. unfold readFatHeader, setLittleEndian, bind, getUInt32.
  unfold Reader.setLittleEndian.
  cbn [Reader.dev Reader.pos Reader.littleEndian].
  rewrite checked_at by lia.
  destruct (lenZ f <? 0 + 4 + 4) eqn:E'; [apply Z.ltb_lt in E'; lia|].
  replace (0 + 4) with 4 by lia. rewrite Hcount. reflexivity.
Qed.

Lemma parse_empty_directory_witness :
  parse (Some (u32be 0xCAFEBABE ++ u32be 0 ++ header32 0)) []
  = Returned true [].
Proof.
  apply parse_empty_directory; vm_compute; try reflexivity. discriminate.
Defined.

(** ** The attributes of a decoded slice *)

(** With 28 bytes at the base offset the header is always decoded, whatever
    the bytes are: the result in terms of the bytes of the file. The load
    commands start 28 bytes behind the base offset in a 32-bit slice and
    32 bytes behind it in a 64-bit slice (fewer when the file ends inside
    the reserved word). *)
Lemma readHeader_at (offset : Z) (r : Reader.t) :
  0 <= offset ->
  offset + 28 <= lenZ (Reader.dev r) ->
  let f := Reader.dev r in
  let magic := uintAt 4 true f offset in
  let bits := fst (classifyMagic magic) in
  let le := snd (classifyMagic magic) in
  let sub := uintAt 4 le f (offset + 8) in
  exists r0,
    readHeader offset r
    = Ok (mkHeader bits le (cpuTypeOf (uintAt 4 le f (offset + 4)))
            (cpuSubTypeOf (if bits =? 64 then wrap32 (sub - 0x80000000)
                           else sub))
            (fileTypeOf (uintAt 4 le f (offset + 12)))
            (uintAt 4 le f (offset + 16))) r0 /\
    Reader.dev r0 = f /\ Reader.littleEndian r0 = le /\
    Reader.pos r0
    = offset + 28
      + (if bits =? 64 then Z.min 4 (lenZ f - (offset + 28)) else 0).
Proof.
  intros Ho Hlen. cbv zeta.
  unfold readHeader, seek, setLittleEndian, getUInt32, bind.
  unfold Reader.seek, Reader.setLittleEndian.
  cbn [Reader.dev Reader.pos Reader.littleEndian].
  repeat (rewrite checked_at by lia;
          match goal with
          | |- context [if ?b then Failed else _] =>
              let E := fresh "E" in
              destruct b eqn:E; [apply Z.ltb_lt in E; lia|clear E]
          end;
          cbn [Reader.dev Reader.pos Reader.littleEndian]).
  replace (offset + 4 + 4) with (offset + 8) by lia.
  replace (offset + 8 + 4) with (offset + 12) by lia.
  replace (offset + 12 + 4) with (offset + 16) by lia.
  destruct (fst (classifyMagic (uintAt 4 true (Reader.dev r) offset)) =? 64).
  - unfold skipUInt32, ret, Reader.getUInt, Reader.read.
    cbn [Reader.dev Reader.pos Reader.littleEndian].
    set (buf := takeZ 4 (dropZ (offset + 16 + 4 + 4 + 4) (Reader.dev r))).
    assert (Hb : lenZ buf = Z.min 4 (lenZ (Reader.dev r) - (offset + 28))).
    { subst buf. rewrite lenZ_takeZ, lenZ_dropZ by lia. lia. }
    destruct (lenZ buf <? 4); cbn [snd]; eexists;
      (split; [reflexivity|]);
      cbn [Reader.dev Reader.pos Reader.littleEndian];
      repeat split; lia.
  - unfold ret. eexists. split; [reflexivity|].
    cbn [Reader.dev Reader.pos Reader.littleEndian]. repeat split. lia.
Qed.

(** The CPU subtype and the file type of a decoded slice are those of the
    third and the fourth word behind the magic, read in the byte order of
    the slice; in a 64-bit slice 0x80000000 is first taken off the subtype
    word, modulo 2^32. Words outside the tables give [I386] and
    [Object]. *)
Theorem slice_subtype_and_filetype (offset size : Z) (r r' : Reader.t)
    (bo : BinaryObject) :
  0 <= offset ->
  decodeSlice offset size r = Ok bo r' ->
  let f := Reader.dev r in
  let le := littleEndian bo in
  let sub := uintAt 4 le f (offset + 8) in
  cpuSubType bo
  = cpuSubTypeOf (if systemBits bo =? 64 then wrap32 (sub - 0x80000000)
                  else sub) /\
  fileType bo = fileTypeOf (uintAt 4 le f (offset + 12)).
Proof.
  intros Ho Hdec.
  apply decodeSlice_Ok in Hdec
    as (hdr & r0 & st & sy & dy & r1 & secs & sy' & dy' & Hh & _ & _ & _
        & _ & ->).
  cbn [littleEndian systemBits cpuSubType fileType].
  assert (offset + 28 <= lenZ (Reader.dev r)) as Hlen.
  { destruct (Z_lt_le_dec (lenZ (Reader.dev r)) (offset + 28)) as [L|L];
      [|exact L].
    apply (readHeader_Failed_iff offset r Ho) in L. congruence. }
  destruct (readHeader_at offset r Ho Hlen) as (r0' & E & _).
  rewrite Hh in E. injection E as -> _. split; reflexivity.
Qed.

Lemma slice_subtype_and_filetype_witness :
  exists bo r',
    decodeSlice 0 0
      (Reader.mk (u32le 0xFEEDFACF ++ u32le (7 + 0x01000000)
                  ++ u32le 0x80000004 ++ u32le 6 ++ u32le 0 ++ u32le 0
                  ++ u32le 0 ++ u32le 0) 4 true) = Ok bo r' /\
    cpuSubType bo = I486 /\ fileType bo = Dylib.
Proof.
  eassert (Hdec : decodeSlice 0 0
            (Reader.mk (u32le 0xFEEDFACF ++ u32le (7 + 0x01000000)
                        ++ u32le 0x80000004 ++ u32le 6 ++ u32le 0 ++ u32le 0
                        ++ u32le 0 ++ u32le 0) 4 true) = Ok _ _)
    by (vm_compute; reflexivity).
  destruct (slice_subtype_and_filetype 0 0 _ _ _ ltac:(lia) Hdec) as [H1 H2].
  do 2 eexists. split; [exact Hdec|].
  split; [rewrite H1 | rewrite H2]; vm_compute; reflexivity.
Defined.

(** ** The contents of the sections *)

(** The load pass never fails: it gives every section the bytes that the
    file has from the section's offset on, at most as many as its size
    says. *)
Lemma fillSections_spec (secs : list Section) :
  forall r : Reader.t,
    exists r',
      fillSections secs r
      = Ok (map (fun s => setData
                   (takeZ (toInt64 (secSize s))
                          (dropZ (secOffset s) (Reader.dev r))) s) secs) r'
      /\ Reader.dev r' = Reader.dev r.
Proof.
  induction secs as [|s secs IH]; intros r; cbn [fillSections map].
  - exists r. split; reflexivity.
  - unfold bind, seek, readBytes, Reader.read, Reader.seek.
    cbn [Reader.dev Reader.pos Reader.littleEndian].
    match goal with
    | |- context [fillSections secs ?x] =>
        destruct (IH x) as (r' & E & Hd); rewrite E
    end.
    cbn [Reader.dev] in Hd. exists r'. split; [reflexivity | exact Hd].
Qed.



(** ** The dynamic symbol table at the edges *)

Lemma resolveDynSymbols_length (stubAddr symnum : Z)
    (symbols dynsymbols : SymbolTable) :
  forall (h : Z) (res : SymbolTable),
    resolveDynSymbols stubAddr symnum symbols h dynsymbols = Some res ->
    List.length res = List.length dynsymbols.
Proof.
  induction dynsymbols as [|d dynsymbols IH]; intros h res H;
    cbn [resolveDynSymbols] in H.
  - injection H as <-. reflexivity.
  - destruct (resolveDynSymbols stubAddr symnum symbols (h + 1) dynsymbols)
      as [rest'|] eqn:Hrest; [|discriminate].
    apply IH in Hrest.
    destruct ((0 <=? toInt32 (symIndex d)) && (toInt32 (symIndex d) <? symnum)).
    + destruct (nth_error symbols (Z.to_nat (toInt32 (symIndex d))));
        [|discriminate].
      injection H as <-. cbn [List.length]. lia.
    + injection H as <-. cbn [List.length]. lia.
Qed.

(** Without primary symbols there is no dynamic symbol table: when the
    symbol table of a decoded slice is empty (no LC_SYMTAB command, or one
    that announces no symbol), its dynamic symbol table is empty too,
    whatever indirect symbols the slice announces and the decoder has
    read. *)
Theorem no_symbols_no_dynamic_symbols (offset size : Z) (r r' : Reader.t)
    (bo : BinaryObject) :
  decodeSlice offset size r = Ok bo r' ->
  symbolTable bo = [] ->
  dynSymbolTable bo = [].
Proof.
  intros Hdec Hempty.
  apply decodeSlice_Ok in Hdec
    as (hdr & r0 & st & sy & dy & r1 & secs & sy' & dy' & _ & Hdesc & _
        & Hms & _ & ->).
  cbn [symbolTable dynSymbolTable] in *.
  apply describeSlice_Ok in Hdesc as (st0 & r2 & st1 & r3 & _ & Hs & Hd).
  destruct (table_passes_counts _ _ _ _ _ _ _ _ _ _ Hs Hd)
    as (_ & _ & Hlen & _).
  destruct (0 <? symnum st) eqn:Hsym;
    [|rewrite andb_false_r; reflexivity].
  apply Z.ltb_lt in Hsym. specialize (Hlen Hsym).
  subst sy'. apply mergeStrings_length in Hms. cbn [List.length] in Hms.
  rewrite <- Hms in Hlen. cbn in Hlen. lia.
Qed.

Lemma no_symbols_no_dynamic_symbols_witness :
  exists bo r',
    decodeSlice 0 0 (Reader.mk dysymtabOnlyFile 4 true) = Ok bo r' /\
    map secType (sections bo) = [SectionType.DynSymbols] /\
    dynSymbolTable bo = [].
Proof.
  eassert (Hdec : decodeSlice 0 0 (Reader.mk dysymtabOnlyFile 4 true)
                  = Ok _ _)
    by (vm_compute; reflexivity).
  do 2 eexists. split; [exact Hdec|]. split; [reflexivity|].
  exact (no_symbols_no_dynamic_symbols _ _ _ _ _ Hdec eq_refl).
Defined.

(** Without a Symbol Stubs section the dynamic symbols stay unresolved:
    every entry of the dynamic symbol table of the decoded slice has an
    empty name and the value zero. *)
Theorem no_stubs_no_resolution (offset size : Z) (r r' : Reader.t)
    (bo : BinaryObject) :
  decodeSlice offset size r = Ok bo r' ->
  getSection SectionType.SymbolStubs (sections bo) = None ->
  Forall (fun e => symString e = EmptyString /\ symValue e = 0)
         (dynSymbolTable bo).
Proof.
  intros Hdec Hstubs.
  apply decodeSlice_Ok in Hdec
    as (hdr & r0 & st & sy & dy & r1 & secs & sy' & dy' & _ & Hdesc & _
        & _ & Hmd & ->).
  cbn [sections dynSymbolTable] in *.
  apply describeSlice_Ok in Hdesc as (st0 & r2 & st1 & r3 & _ & Hs & Hd).
  destruct (table_passes_counts _ _ _ _ _ _ _ _ _ _ Hs Hd)
    as (_ & _ & _ & Hfresh).
  unfold mergeDynSymbols in Hmd. rewrite Hstubs in Hmd.
  destruct ((0 <? indirsymnum st) && (0 <? symnum st));
    [|apply Forall_nil].
  injection Hmd as <-. exact Hfresh.
Qed.

Lemma no_stubs_no_resolution_witness :
  exists bo r',
    decodeSlice 0 0 (Reader.mk noStubsFile 4 true) = Ok bo r' /\
    map symString (symbolTable bo) = ["foo"%string] /\
    List.length (dynSymbolTable bo) = 2%nat /\
    Forall (fun e => symString e = EmptyString /\ symValue e = 0)
           (dynSymbolTable bo).
Proof.
  eassert (Hdec : decodeSlice 0 0 (Reader.mk noStubsFile 4 true) = Ok _ _)
    by (vm_compute; reflexivity).
  do 2 eexists. split; [exact Hdec|]. split; [reflexivity|].
  split; [reflexivity|].
  exact (no_stubs_no_resolution _ _ _ _ _ Hdec eq_refl).
Defined.

(** ** The sections of a decoded slice *)

Lemma establishes_ret {A} (P : A -> Prop) (a : A) :
  P a -> establishes P (ret a).
Proof. intros HP r b r' H. apply ret_Ok in H as [<- _]. exact HP. Qed.

Lemma establishes_bind {A B} (P : B -> Prop) (m : M A) (k : A -> M B) :
  (forall a, establishes P (k a)) -> establishes P (bind m k).
Proof.
  intros Hk r b r'' H. apply bind_Ok in H as (a & r' & _ & H2).
  eapply Hk. exact H2.
Qed.

Lemma establishes_repeatM {S} (P : S -> Prop) (body : S -> M S) :
  (forall st, P st -> establishes P (body st)) ->
  forall n st, P st -> establishes P (repeatM n body st).
Proof.
  intros Hb n st HP r st' r' H.
  apply (repeatM_inv (fun s _ => P s) body) in H; [exact H| |exact HP].
  intros s x s' x' Hs Hbody. eapply Hb; eauto.
Qed.

Lemma add32_range (a b : Z) : 0 <= add32 a b < 2 ^ 32.
Proof. unfold add32, wrap32. apply Z.mod_pos_bound. lia. Qed.

Lemma commandSections_addSection (offset : Z) (s : Section) (st : LoadState) :
  commandSection offset s ->
  Forall (commandSection offset) (lsSections st) ->
  Forall (commandSection offset) (lsSections (addSection s st)).
Proof.
  intros Hs Hst. cbn [addSection lsSections]. apply Forall_app. split; auto.
Qed.

Ltac section_ok :=
  unfold commandSection, sectionInvariant, newSection;
  cbn [secType secName secOffset secAddress sectionLabels isTableSection In];
  repeat split; try apply add32_range; try discriminate; auto.

Lemma storeSection_sections (offset : Z) (segname secname : string)
    (addr secsize secfileoff : Z) (st : LoadState) :
  Forall (commandSection offset) (lsSections st) ->
  Forall (commandSection offset)
    (lsSections (storeSection offset segname secname addr secsize
                   secfileoff st)).
Proof.
  intros Hst. unfold storeSection.
  repeat match goal with
         | |- context [if ?b then _ else _] => destruct b
         end;
    try exact Hst; (apply commandSections_addSection; [section_ok|exact Hst]).
Qed.

(** Every section that the command loop registers carries the label of
    its type and an offset computed from the base offset; the loop
    registers no Symbol Table and no Dynamic Symbol Table section. *)
Lemma loadCommand_sections (bits offset : Z) (st : LoadState) :
  Forall (commandSection offset) (lsSections st) ->
  establishes (fun st' => Forall (commandSection offset) (lsSections st'))
    (loadCommand bits offset st).
Proof.
  intros Hst. unfold loadCommand.
  do 2 (apply establishes_bind; intros).
  repeat match goal with
         | |- context [if ?b then _ else _] => destruct b
         end;
    unfold readSegment, readDyldInfo, readSymtab, readDysymtab, readLinkedit;
    repeat (apply establishes_bind; intros);
    try (apply establishes_ret; exact Hst).
  - apply establishes_repeatM; [|exact Hst].
    intros st0 Hst0. unfold readSection.
    repeat (apply establishes_bind; intros).
    apply establishes_ret. apply storeSection_sections. exact Hst0.
  - apply establishes_ret.
    apply commandSections_addSection; [section_ok | exact Hst].
  - destruct (_ =? 0x26); [|destruct (_ =? 0x1D)]; apply establishes_ret;
      try exact Hst;
      (apply commandSections_addSection; [section_ok | exact Hst]).
  - intros r st' r' H. discriminate.
Qed.

Lemma loadCommands_sections (bits offset : Z) (n : nat) :
  establishes (fun st' => Forall (commandSection offset) (lsSections st'))
    (loadCommands bits offset n initLoadState).
Proof.
  unfold loadCommands. apply establishes_repeatM.
  - intros st Hst. apply loadCommand_sections. exact Hst.
  - apply Forall_nil.
Qed.

Lemma wrap32_add_l (a b : Z) : wrap32 (wrap32 a + b) = wrap32 (a + b).
Proof. unfold wrap32. apply Zplus_mod_idemp_l. Qed.

(** The running size of a table loop whose turns each add [esz]. *)
Lemma repeatM_size {T} (body : T * Z -> M (T * Z)) (esz : Z) :
  (forall acc r acc' r',
      body acc r = Ok acc' r' -> snd acc' = wrap32 (snd acc + esz)) ->
  forall n acc r acc' r',
    repeatM n body acc r = Ok acc' r' ->
    wrap32 (snd acc') = wrap32 (snd acc + esz * Z.of_nat n).
Proof.
  intros Hb. induction n as [|n IH]; intros acc r acc' r' H.
  - apply ret_Ok in H as [<- _]. f_equal. lia.
  - cbn [repeatM] in H. apply bind_Ok in H as (acc1 & r1 & H1 & H2).
    rewrite (IH _ _ _ _ H2), (Hb _ _ _ _ H1), wrap32_add_l. f_equal. lia.
Qed.

Lemma wrap32_wrap32 (a : Z) : wrap32 (wrap32 a) = wrap32 a.
Proof. unfold wrap32. apply Z.mod_mod. lia. Qed.

(** The sizes with which the table passes register their sections: the
    number of entries times the size of an entry, modulo 2^32. *)
Lemma readSymbolTable_size (bits offset : Z) (st st' : LoadState)
    (r r' : Reader.t) (syms : SymbolTable) :
  0 < symnum st ->
  readSymbolTable bits offset st r = Ok (syms, st') r' ->
  st' = addSection
          (newSection SectionType.Symbols "Symbol Table" (symoff st)
             (wrap32 ((8 + wordBytes bits) * symnum st))
             (add32 offset (symoff st))) st.
Proof.
  intros Hpos H. unfold readSymbolTable in H.
  pose proof Hpos as Hb. apply Z.ltb_lt in Hb. rewrite Hb in H.
  apply bind_Ok in H as (u & r0 & _ & H).
  apply bind_Ok in H as (res & r1 & Hloop & H).
  apply ret_Ok in H as [H _]. injection H as _ <-.
  assert (Hsz : snd res = wrap32 ((8 + wordBytes bits) * symnum st)).
  { pose proof (repeatM_size (readSymbol bits) (8 + wordBytes bits)) as Hs.
    assert (Hstep : forall acc x acc' x',
               readSymbol bits acc x = Ok acc' x' ->
               snd acc' = wrap32 (snd acc + (8 + wordBytes bits))).
    { intros acc x acc' x' Hx. apply readSymbol_Ok in Hx as (_ & E & _).
      exact E. }
    specialize (Hs Hstep _ _ _ _ _ Hloop). cbn [snd] in Hs.
    rewrite Z2Nat.id, Z.add_0_l in Hs by lia. rewrite <- Hs.
    destruct (Z.to_nat (symnum st)) as [|n] eqn:En; [lia|].
    rewrite <- Nat.add_1_r, repeatM_add in Hloop.
    apply bind_Ok in Hloop as (acc1 & x1 & _ & Hlast).
    cbn [repeatM] in Hlast. apply bind_Ok in Hlast as (acc2 & x2 & Hl & Hr).
    apply ret_Ok in Hr as [<- _]. rewrite (Hstep _ _ _ _ Hl).
    symmetry. apply wrap32_wrap32. }
  rewrite Hsz. reflexivity.
Qed.

Lemma readDynSymbolTable_size (offset : Z) (st st' : LoadState)
    (r r' : Reader.t) (dyns : SymbolTable) :
  0 < indirsymnum st ->
  readDynSymbolTable offset st r = Ok (dyns, st') r' ->
  st' = addSection
          (newSection SectionType.DynSymbols "Dynamic Symbol Table"
             (indirsymoff st) (wrap32 (4 * indirsymnum st))
             (add32 offset (indirsymoff st))) st.
Proof.
  intros Hpos H. unfold readDynSymbolTable in H.
  pose proof Hpos as Hb. apply Z.ltb_lt in Hb. rewrite Hb in H.
  apply bind_Ok in H as (u & r0 & _ & H).
  apply bind_Ok in H as (res & r1 & Hloop & H).
  apply ret_Ok in H as [H _]. injection H as _ <-.
  assert (Hsz : snd res = wrap32 (4 * indirsymnum st)).
  { pose proof (repeatM_size readDynSymbol 4) as Hs.
    assert (Hstep : forall acc x acc' x',
               readDynSymbol acc x = Ok acc' x' ->
               snd acc' = wrap32 (snd acc + 4)).
    { intros acc x acc' x' Hx. apply readDynSymbol_Ok in Hx as (_ & E & _).
      exact E. }
    specialize (Hs Hstep _ _ _ _ _ Hloop). cbn [snd] in Hs.
    rewrite Z2Nat.id, Z.add_0_l in Hs by lia. rewrite <- Hs.
    destruct (Z.to_nat (indirsymnum st)) as [|n] eqn:En; [lia|].
    rewrite <- Nat.add_1_r, repeatM_add in Hloop.
    apply bind_Ok in Hloop as (acc1 & x1 & _ & Hlast).
    cbn [repeatM] in Hlast. apply bind_Ok in Hlast as (acc2 & x2 & Hl & Hr).
    apply ret_Ok in Hr as [<- _]. rewrite (Hstep _ _ _ _ Hl).
    symmetry. apply wrap32_wrap32. }
  rewrite Hsz. reflexivity.
Qed.

(** The sections of a described slice: those of the load commands, then
    the Symbol Table section when symbols are announced, then the Dynamic
    Symbol Table section when indirect symbols are announced. *)
Lemma describeSlice_sections (bits offset ncmds : Z) (r r' : Reader.t)
    (st : LoadState) (symTable dynsymTable : SymbolTable) :
  describeSlice bits offset ncmds r = Ok (st, symTable, dynsymTable) r' ->
  exists cmdSecs,
    Forall (commandSection offset) cmdSecs /\
    lsSections st
    = cmdSecs
      ++ (if 0 <? symnum st
          then [newSection SectionType.Symbols "Symbol Table" (symoff st)
                  (wrap32 ((8 + wordBytes bits) * symnum st))
                  (add32 offset (symoff st))]
          else [])
      ++ (if 0 <? indirsymnum st
          then [newSection SectionType.DynSymbols "Dynamic Symbol Table"
                  (indirsymoff st) (wrap32 (4 * indirsymnum st))
                  (add32 offset (indirsymoff st))]
          else []).
Proof.
  intros H. apply describeSlice_Ok in H as (st0 & r0 & st1 & r1 & Hc & Hs & Hd).
  exists (lsSections st0). split; [exact (loadCommands_sections _ _ _ _ _ _ Hc)|].
  assert (E1 : st1 = (if 0 <? symnum st0
                      then addSection
                             (newSection SectionType.Symbols "Symbol Table"
                                (symoff st0)
                                (wrap32 ((8 + wordBytes bits) * symnum st0))
                                (add32 offset (symoff st0))) st0
                      else st0)).
  { destruct (0 <? symnum st0) eqn:E.
    - apply Z.ltb_lt in E. eapply readSymbolTable_size; eassumption.
    - apply Z.ltb_ge in E. rewrite readSymbolTable_none in Hs by exact E.
      injection Hs as _ <- _. reflexivity. }
  assert (E2 : st = (if 0 <? indirsymnum st1
                     then addSection
                            (newSection SectionType.DynSymbols
                               "Dynamic Symbol Table" (indirsymoff st1)
                               (wrap32 (4 * indirsymnum st1))
                               (add32 offset (indirsymoff st1))) st1
                     else st1)).
  { destruct (0 <? indirsymnum st1) eqn:E.
    - apply Z.ltb_lt in E. eapply readDynSymbolTable_size; eassumption.
    - apply Z.ltb_ge in E. rewrite readDynSymbolTable_none in Hd by exact E.
      injection Hd as _ <- _. reflexivity. }
  destruct (0 <? symnum st0) eqn:Es; subst st1;
    unfold addSection in E2 at 1;
    cbn [indirsymnum indirsymoff lsSections symnum symoff] in E2;
    destruct (0 <? indirsymnum st0) eqn:Ed; subst st;
    unfold addSection;
    cbn [lsSections symnum symoff indirsymnum indirsymoff];
    rewrite ?Es, ?Ed, <- ?app_assoc, ?app_nil_r; reflexivity.
Qed.

Lemma SectionType_eqb_eq (a b : SectionType.t) :
  SectionType.eqb a b = true <-> a = b.
Proof. destruct a, b; cbn; split; (reflexivity || discriminate). Qed.

Lemma getSection_app (ty : SectionType.t) (l1 l2 : list Section) :
  getSection ty (l1 ++ l2)
  = match getSection ty l1 with
    | Some s => Some s
    | None => getSection ty l2
    end.
Proof.
  unfold getSection. induction l1 as [|s l1 IH]; cbn [app find];
    [reflexivity|].
  destruct (SectionType.eqb (secType s) ty); [reflexivity | exact IH].
Qed.

Lemma getSection_none (ty : SectionType.t) (l : list Section) :
  Forall (fun s => secType s <> ty) l -> getSection ty l = None.
Proof.
  unfold getSection. induction 1 as [|s l Hs _ IH]; cbn [find];
    [reflexivity|].
  destruct (SectionType.eqb (secType s) ty) eqn:E; [|exact IH].
  apply SectionType_eqb_eq in E. contradiction.
Qed.

Lemma getSection_map (ty : SectionType.t) (g : Section -> Section)
    (l : list Section) :
  (forall s, secType (g s) = secType s) ->
  getSection ty (map g l) = option_map g (getSection ty l).
Proof.
  intros Hg. unfold getSection. induction l as [|s l IH]; cbn [map find];
    [reflexivity|].
  rewrite Hg. destruct (SectionType.eqb (secType s) ty);
    [reflexivity | exact IH].
Qed.

(** The sections of a decoded slice are the described ones with their
    contents filled in. *)
Lemma decodeSlice_sections (offset size : Z) (r r' : Reader.t)
    (bo : BinaryObject) :
  decodeSlice offset size r = Ok bo r' ->
  exists hdr r0 st symTable dynsymTable r1,
    readHeader offset r = Ok hdr r0 /\
    describeSlice (hSystemBits hdr) offset (hNcmds hdr) r0
      = Ok (st, symTable, dynsymTable) r1 /\
    systemBits bo = hSystemBits hdr /\
    (0 < symnum st ->
     Z.of_nat (List.length (symbolTable bo)) = symnum st) /\
    (symnum st <= 0 -> symbolTable bo = []) /\
    (0 < symnum st -> 0 < indirsymnum st ->
     Z.of_nat (List.length (dynSymbolTable bo)) = indirsymnum st) /\
    sections bo
    = map (fun s => setData
                      (takeZ (toInt64 (secSize s))
                             (dropZ (secOffset s) (Reader.dev r))) s)
          (lsSections st).
Proof.
  intros Hdec.
  apply decodeSlice_Ok in Hdec
    as (hdr & r0 & st & sy & dy & r1 & secs & sy' & dy' & Hh & Hdesc & Hf
        & Hms & Hmd & ->).
  exists hdr, r0, st, sy, dy, r1. cbn [systemBits symbolTable dynSymbolTable
                                       sections].
  split; [exact Hh|]. split; [exact Hdesc|]. split; [reflexivity|].
  pose proof Hdesc as Hdesc'.
  apply describeSlice_Ok in Hdesc' as (st0 & r2 & st1 & r3 & _ & Hs & Hd).
  destruct (table_passes_counts _ _ _ _ _ _ _ _ _ _ Hs Hd)
    as (_ & E2 & Hlen & _).
  split; [|split; [|split]].
  - intros Hp. pose proof Hp as Hb. apply Z.ltb_lt in Hb. rewrite Hb.
    rewrite (mergeStrings_length _ _ _ _ Hms). auto.
  - intros Hn. apply Z.ltb_ge in Hn. rewrite Hn. reflexivity.
  - intros Hp Hi. pose proof Hp as Hb. apply Z.ltb_lt in Hb.
    pose proof Hi as Hib. apply Z.ltb_lt in Hib. rewrite Hb, Hib.
    cbn [andb].
    assert (List.length dy' = List.length dy) as ->.
    { unfold mergeDynSymbols in Hmd. rewrite Hb, Hib in Hmd. cbn [andb] in Hmd.
      destruct (getSection SectionType.SymbolStubs secs).
      - eapply resolveDynSymbols_length; eassumption.
      - injection Hmd as <-. reflexivity. }
    assert (indirsymnum st1 = indirsymnum st) as Ei.
    { destruct (Z_lt_le_dec 0 (indirsymnum st1)) as [Hq|Hq].
      - apply (readDynSymbolTable_Ok _ _ _ _ _ _ Hq) in Hd
          as (_ & _ & (sz & ->) & _). reflexivity.
      - rewrite readDynSymbolTable_none in Hd by exact Hq.
        injection Hd as _ <- _. reflexivity. }
    rewrite <- Ei in Hi.
    apply (readDynSymbolTable_Ok _ _ _ _ _ _ Hi) in Hd as (Hl & _).
    rewrite Hl. lia.
  - destruct (fillSections_spec (lsSections st) r1) as (r4 & E & _).
    rewrite Hf in E. injection E as -> _.
    rewrite (keepsDev_describeSlice _ _ _ _ _ _ Hdesc),
            (keepsDev_readHeader _ _ _ _ Hh).
    reflexivity.
Qed.

(** Every section of a decoded slice carries the label of its type (a
    C-string section one of the two labels of that type), its file offset
    is a 32-bit value, and for the String Table, Function Starts, Code
    Signature, Symbol Table and Dynamic Symbol Table sections the address
    field holds the offset as the load command gives it, so that the file
    offset is the base offset plus the address in 32-bit arithmetic. *)
Theorem section_labels_and_offsets (offset size : Z) (r r' : Reader.t)
    (bo : BinaryObject) :
  decodeSlice offset size r = Ok bo r' ->
  Forall (sectionInvariant offset) (sections bo).
Proof.
  intros Hdec.
  apply decodeSlice_sections in Hdec
    as (hdr & r0 & st & sy & dy & r1 & _ & Hdesc & _ & _ & _ & _ & ->).
  apply describeSlice_sections in Hdesc as (cmdSecs & Hcmd & ->).
  apply Forall_forall. intros s Hin.
  apply in_map_iff in Hin as (s0 & <- & Hin).
  assert (sectionInvariant offset s0) as H0.
  { apply in_app_or in Hin as [Hin|Hin].
    - rewrite Forall_forall in Hcmd. apply Hcmd. exact Hin.
    - apply in_app_or in Hin as [Hin|Hin];
        [destruct (0 <? symnum st) | destruct (0 <? indirsymnum st)];
        cbn [In] in Hin; try contradiction;
        destruct Hin as [<-|[]];
        unfold sectionInvariant, newSection;
        cbn [secType secName secOffset secAddress sectionLabels
             isTableSection In];
        repeat split; try apply add32_range; auto. }
  exact H0.
Qed.

Lemma section_labels_and_offsets_witness :
  exists bo r',
    decodeSlice 28 328 (Reader.mk fatStubsFile 28 false) = Ok bo r' /\
    map (fun s => (secName s, secAddress s, secOffset s)) (sections bo)
    = [("Symbol Stubs"%string, 0x1000, 332);
       ("String Table"%string, 296, 324);
       ("Symbol Table"%string, 256, 284);
       ("Dynamic Symbol Table"%string, 280, 308)] /\
    Forall (sectionInvariant 28) (sections bo).
Proof.
  eassert (Hdec : decodeSlice 28 328 (Reader.mk fatStubsFile 28 false)
                  = Ok _ _)
    by (vm_compute; reflexivity).
  do 2 eexists. split; [exact Hdec|]. split; [reflexivity|].
  exact (section_labels_and_offsets _ _ _ _ _ Hdec).
Defined.

(** The Symbol Table and the Dynamic Symbol Table section of a decoded
    slice, when there are any, are its last sections, in this order, and
    there is at most one of each; no load command registers a section of
    these types. *)
Theorem table_sections_last (offset size : Z) (r r' : Reader.t)
    (bo : BinaryObject) :
  decodeSlice offset size r = Ok bo r' ->
  exists cmdSecs tail,
    sections bo = cmdSecs ++ tail /\
    Forall (fun s => secType s <> SectionType.Symbols /\
                     secType s <> SectionType.DynSymbols) cmdSecs /\
    In (map secType tail)
       [[]; [SectionType.Symbols]; [SectionType.DynSymbols];
        [SectionType.Symbols; SectionType.DynSymbols]].
Proof.
  intros Hdec.
  apply decodeSlice_sections in Hdec
    as (hdr & r0 & st & sy & dy & r1 & _ & Hdesc & _ & _ & _ & _ & ->).
  apply describeSlice_sections in Hdesc as (cmdSecs & Hcmd & ->).
  rewrite map_app.
  eexists _, _. split; [reflexivity|]. split.
  - apply Forall_forall. intros s Hin.
    apply in_map_iff in Hin as (s0 & <- & Hin).
    rewrite Forall_forall in Hcmd. destruct (Hcmd s0 Hin) as (_ & H1 & H2).
    cbn [setData secType]. auto.
  - rewrite map_map. cbn [setData secType].
    destruct (0 <? symnum st); destruct (0 <? indirsymnum st);
      cbn [app map newSection secType In]; auto.
Qed.

Lemma table_sections_last_witness :
  exists bo r',
    decodeSlice 0 0 (Reader.mk stubsFile 4 true) = Ok bo r' /\
    map secType (sections bo)
    = [SectionType.SymbolStubs; SectionType.String]
      ++ [SectionType.Symbols; SectionType.DynSymbols].
Proof.
  eassert (Hdec : decodeSlice 0 0 (Reader.mk stubsFile 4 true) = Ok _ _)
    by (vm_compute; reflexivity).
  destruct (table_sections_last _ _ _ _ _ Hdec) as (c & t & _ & _ & _).
  do 2 eexists. split; [exact Hdec | reflexivity].
Defined.

(** The Symbol Table section of a decoded slice spans the entries read:
    its size is the number of primary symbols times 12 bytes in a 32-bit
    slice and 16 bytes in a 64-bit slice; the Dynamic Symbol Table section
    of a slice with primary symbols has 4 bytes per dynamic symbol. Both
    sizes are 32-bit values, taken modulo 2^32. *)
Theorem table_section_sizes (offset size : Z) (r r' : Reader.t)
    (bo : BinaryObject) (s : Section) :
  decodeSlice offset size r = Ok bo r' ->
  In s (sections bo) ->
  (secType s = SectionType.Symbols ->
   secSize s = wrap32 ((8 + wordBytes (systemBits bo))
                       * Z.of_nat (List.length (symbolTable bo)))) /\
  (secType s = SectionType.DynSymbols -> symbolTable bo <> [] ->
   secSize s = wrap32 (4 * Z.of_nat (List.length (dynSymbolTable bo)))).
Proof.
  intros Hdec Hin.
  apply decodeSlice_sections in Hdec
    as (hdr & r0 & st & sy & dy & r1 & _ & Hdesc & Hbits & Hlen & Hnil
        & Hdlen & E).
  rewrite E in Hin. apply in_map_iff in Hin as (s0 & <- & Hin).
  cbn [setData secType secSize]. rewrite Hbits.
  apply describeSlice_sections in Hdesc as (cmdSecs & Hcmd & Hsecs).
  rewrite Hsecs in Hin. rewrite Forall_forall in Hcmd.
  apply in_app_or in Hin as [Hin|Hin].
  { destruct (Hcmd s0 Hin) as (_ & H1 & H2). split; intros; contradiction. }
  apply in_app_or in Hin as [Hin|Hin].
  - destruct (0 <? symnum st) eqn:Es; [|destruct Hin].
    apply Z.ltb_lt in Es. destruct Hin as [<-|[]].
    cbn [newSection secType secSize]. split; [|discriminate].
    intros _. rewrite (Hlen Es). reflexivity.
  - destruct (0 <? indirsymnum st) eqn:Ed; [|destruct Hin].
    apply Z.ltb_lt in Ed. destruct Hin as [<-|[]].
    cbn [newSection secType secSize]. split; [discriminate|].
    intros _ Hne.
    destruct (Z_lt_le_dec 0 (symnum st)) as [Hp|Hp];
      [|elim Hne; auto].
    rewrite (Hdlen Hp Ed). reflexivity.
Qed.

Lemma table_section_sizes_witness :
  exists bo r' s1 s2,
    decodeSlice 0 0 (Reader.mk stubsFile 4 true) = Ok bo r' /\
    getSection SectionType.Symbols (sections bo) = Some s1 /\
    getSection SectionType.DynSymbols (sections bo) = Some s2 /\
    secSize s1 = wrap32 ((8 + wordBytes 32) * 2) /\ secSize s1 = 24 /\
    secSize s2 = wrap32 (4 * 4) /\ secSize s2 = 16.
Proof.
  eassert (Hdec : decodeSlice 0 0 (Reader.mk stubsFile 4 true) = Ok _ _)
    by (vm_compute; reflexivity).
  match type of Hdec with
  | _ = Ok ?b _ =>
      eassert (H1 : getSection SectionType.Symbols (sections b) = Some _)
        by (vm_compute; reflexivity);
      eassert (H2 : getSection SectionType.DynSymbols (sections b) = Some _)
        by (vm_compute; reflexivity)
  end.
  pose proof (proj1 (find_some _ _ H1)) as Hin1.
  pose proof (proj1 (find_some _ _ H2)) as Hin2.
  destruct (table_section_sizes _ _ _ _ _ _ Hdec Hin1) as [A _].
  destruct (table_section_sizes _ _ _ _ _ _ Hdec Hin2) as [_ B].
  do 4 eexists. split; [exact Hdec|]. split; [exact H1|].
  split; [exact H2|].
  split; [exact (A eq_refl)|]. split; [reflexivity|].
  split; [exact (B eq_refl ltac:(discriminate)) | reflexivity].
Defined.

(** ** How far a command moves the reader *)

Lemma advances_ret {A} (a : A) : advances 0 (ret a).
Proof.
  intros r v r' H. apply ret_Ok in H as [_ <-]. lia.
Qed.

Lemma advances_checked (num : Z) : 0 <= num -> advances num (checked num).
Proof.
  intros Hnum r v r' H. apply checked_Ok in H as [_ ->]; [|exact Hnum].
  reflexivity.
Qed.

Lemma advances_bind {A B} (a b n : Z) (m : M A) (k : A -> M B) :
  advances a m -> (forall v, advances b (k v)) -> a + b = n ->
  advances n (bind m k).
Proof.
  intros Hm Hk <- r v r' H.
  apply bind_Ok in H as (x & r1 & H1 & H2).
  apply Hm in H1. apply Hk in H2. lia.
Qed.

Ltac advance :=
  lazymatch goal with
  | |- advances _ (bind _ _) =>
      eapply advances_bind; [advance | intros; advance | reflexivity]
  | |- advances _ (checked _) => apply advances_checked; lia
  | |- advances _ (ret _) => apply advances_ret
  | |- advances _ (if ?b then _ else _) => destruct b; advance
  end.

(** With the tag known, [decide_tests] settles the tests of the dispatch. *)
Ltac decide_tests Hty H :=
  lazymatch type of Hty with
  | ?ty = ?c0 =>
      repeat match type of H with
             | context [?t =? ?c] =>
                 constr_eq t ty;
                 let v := eval vm_compute in (c0 =? c) in
                 let E := fresh "E" in
                 assert (E : (t =? c) = v)
                   by (rewrite Hty; vm_compute; reflexivity);
                 rewrite E in H; clear E
             end;
      cbv beta iota delta [orb] in H
  end.

(** The commands whose fields are all read with a check move the reader
    by a fixed number of bytes, which is the size the Mach-O format gives
    them: 48 for the dyld info, 24 for the symbol table, 80 for the dynamic
    symbol table, 16 for the minimum version, the source version, the data
    in code and the four link-edit data commands, 24 for the entry point.
    The [cmdsize] word of the command is read and not used. *)
Theorem fixed_commands_ignore_cmdsize (bits offset : Z) (st st' : LoadState)
    (r r2 r' : Reader.t) (type n : Z) :
  fixedCommandBytes type = Some n ->
  getUInt32 r = Ok type r2 ->
  loadCommand bits offset st r = Ok st' r' ->
  Reader.pos r' = Reader.pos r + n.
Proof.
  intros Hn Ht H.
  assert (Hcases :
    (type = 0x22 \/ type = 0x80000022) /\ n = 48 \/
    type = 2 /\ n = 24 \/ type = 0xB /\ n = 80 \/
    type = 0x24 /\ n = 16 \/ type = 0x2A /\ n = 16 \/
    type = 0x80000028 /\ n = 24 \/
    (type = 0x26 \/ type = 0x2B \/ type = 0x1E \/ type = 0x1D) /\ n = 16 \/
    type = 0x29 /\ n = 16).
  { unfold fixedCommandBytes in Hn.
    repeat match type of Hn with
           | context [if ?b then _ else _] =>
               let E := fresh "E" in
               destruct b eqn:E;
               [injection Hn as <-;
                rewrite ?orb_true_iff, ?Z.eqb_eq in E; tauto|]
           end.
    discriminate. }
  unfold loadCommand in H.
  apply bind_Ok in H as (type' & r2' & Ht' & H).
  rewrite Ht in Ht'. injection Ht' as <- <-.
  apply checked_Ok in Ht as [_ ->]; [|lia].
  apply bind_Ok in H as (cmdsize & r3 & Hc & H).
  apply checked_Ok in Hc as [_ Hc]; [|lia].
  cbn [Reader.dev Reader.pos Reader.littleEndian] in Hc.
  assert (Hpos : forall m : M LoadState,
             advances (n - 8) m -> m r3 = Ok st' r' ->
             Reader.pos r' = Reader.pos r + n).
  { intros m Hm Hr. apply Hm in Hr. rewrite Hr, Hc.
    cbn [Reader.pos]. lia. }
  clear Hc.
  repeat match type of Hcases with
         | _ \/ _ => destruct Hcases as [Hcases|Hcases]
         | _ /\ _ => destruct Hcases as [Hcases ->]
         end;
    decide_tests Hcases H;
    (apply Hpos in H; [exact H|]);
    unfold readDyldInfo, readSymtab, readDysymtab, readLinkedit,
      getUInt16, getUInt64, getUInt32;
    advance.
Qed.

Lemma fixed_commands_ignore_cmdsize_witness :
  exists st' r',
    loadCommand 32 0 initLoadState
      (Reader.mk (u32le 0x24 ++ u32le 9999 ++ u32le 1 ++ u32le 2) 0 true)
    = Ok st' r' /\
    Reader.pos r' = 0 + 16.
Proof.
  eassert (H : loadCommand 32 0 initLoadState
                 (Reader.mk (u32le 0x24 ++ u32le 9999 ++ u32le 1 ++ u32le 2)
                            0 true) = Ok _ _)
    by (vm_compute; reflexivity).
  do 2 eexists. split; [exact H|].
  exact (fixed_commands_ignore_cmdsize 32 0 _ _
           (Reader.mk (u32le 0x24 ++ u32le 9999 ++ u32le 1 ++ u32le 2) 0 true)
           (Reader.mk (u32le 0x24 ++ u32le 9999 ++ u32le 1 ++ u32le 2) 4 true)
           _ 0x24 16 eq_refl eq_refl H).
Defined.

(** ** How the decoding of a slice can end *)

Lemma bind_Exited {A B} (m : M A) (k : A -> M B) (r : Reader.t) :
  bind m k r = Exited ->
  m r = Exited \/ exists a r', m r = Ok a r' /\ k a r' = Exited.
Proof.
  unfold bind. destruct (m r) as [a r'| | |]; try discriminate; eauto.
Qed.

Lemma bind_Undefined {A B} (m : M A) (k : A -> M B) (r : Reader.t) :
  bind m k r = Undefined ->
  m r = Undefined \/ exists a r', m r = Ok a r' /\ k a r' = Undefined.
Proof.
  unfold bind. destruct (m r) as [a r'| | |]; try discriminate; eauto.
Qed.

(** A loop that ends the process does so in one of its turns, after the
    turns before it have run on. *)
Lemma repeatM_Exited {T} (body : T -> M T) (n : nat) :
  forall st r,
    repeatM n body st r = Exited ->
    exists k st' r',
      (k < n)%nat /\ repeatM k body st r = Ok st' r' /\
      body st' r' = Exited.
Proof.
  induction n as [|n IH]; intros st r H; cbn [repeatM] in H;
    [discriminate|].
  apply bind_Exited in H as [H|(st1 & r1 & H1 & H2)].
  - exists 0%nat, st, r. split; [lia|]. split; [reflexivity | exact H].
  - apply IH in H2 as (k & st' & r' & Hk & Hrep & Hb).
    exists (Datatypes.S k), st', r'. split; [lia|]. split; [|exact Hb].
    cbn [repeatM]. rewrite (bind_eq_Ok _ _ _ _ _ H1). exact Hrep.
Qed.

Lemma noExit_seek (p : Z) : noExit (seek p).
Proof. intros r H. discriminate. Qed.

Lemma noExit_setLittleEndian (le : bool) : noExit (setLittleEndian le).
Proof. intros r H. discriminate. Qed.

Lemma noExit_pos : noExit pos.
Proof. intros r H. discriminate. Qed.

Lemma noExit_defined {A} (o : option A) : noExit (defined o).
Proof. intros r. unfold defined. destruct o; discriminate. Qed.

#[local] Hint Resolve noExit_seek noExit_setLittleEndian noExit_pos
  noExit_defined : noexit.

Lemma noExit_readHeader (offset : Z) : noExit (readHeader offset).
Proof. unfold readHeader, getUInt32. noexit. Qed.

Lemma noExit_readSymbol (bits : Z) (acc : SymbolTable * Z) :
  noExit (readSymbol bits acc).
Proof. unfold readSymbol, getUChar, getUInt16, getUInt32. noexit. Qed.

Lemma noExit_readDynSymbol (acc : SymbolTable * Z) :
  noExit (readDynSymbol acc).
Proof. unfold readDynSymbol, getUInt32. noexit. Qed.

Lemma noExit_fillSections (secs : list Section) :
  noExit (fillSections secs).
Proof. induction secs as [|s secs IH]; cbn [fillSections]; noexit. Qed.

#[local] Hint Resolve noExit_readHeader noExit_readSymbol
  noExit_readDynSymbol noExit_fillSections : noexit.

Lemma noExit_readSymbolTable (bits offset : Z) (st : LoadState) :
  noExit (readSymbolTable bits offset st).
Proof. unfold readSymbolTable. noexit. Qed.

Lemma noExit_readDynSymbolTable (offset : Z) (st : LoadState) :
  noExit (readDynSymbolTable offset st).
Proof. unfold readDynSymbolTable. noexit. Qed.

#[local] Hint Resolve noExit_readSymbolTable noExit_readDynSymbolTable
  : noexit.

(** A turn of the command loop ends the process only after it has read
    the tag and the size of a command and found the tag unrecognized. *)
Lemma loadCommand_Exited (bits offset : Z) (st : LoadState) (r : Reader.t) :
  loadCommand bits offset st r = Exited ->
  exists type r2 cmdsize r3,
    getUInt32 r = Ok type r2 /\ getUInt32 r2 = Ok cmdsize r3 /\
    recognized type = false.
Proof.
  intros H. pose proof H as H'. unfold loadCommand in H'.
  apply bind_Exited in H' as [H'|(type & r2 & H1 & H')];
    [exfalso; exact (noExit_checked _ _ H')|].
  apply bind_Exited in H' as [H'|(cmdsize & r3 & H2 & _)];
    [exfalso; exact (noExit_checked _ _ H')|].
  exists type, r2, cmdsize, r3. split; [exact H1|]. split; [exact H2|].
  apply (loadCommand_exits_iff bits offset st _ _ _ _ _ H1 H2). exact H.
Qed.

(** The decoding of a slice ends the process nowhere but in the command
    loop, at a command whose tag is not recognized: the header has been
    read, [k] commands, fewer than the header announces, have been
    processed, and the tag of the next one, read with its size, is outside
    the recognized set. Neither the header, nor the symbol tables, nor the
    section contents, nor the resolution of the names end the process. *)
Theorem exit_only_at_unrecognized_command (offset size : Z) (r : Reader.t) :
  decodeSlice offset size r = Exited ->
  exists hdr r0 k st r1 type r2 cmdsize r3,
    readHeader offset r = Ok hdr r0 /\
    (k < Z.to_nat (hNcmds hdr))%nat /\
    repeatM k (loadCommand (hSystemBits hdr) offset) initLoadState r0
      = Ok st r1 /\
    getUInt32 r1 = Ok type r2 /\
    getUInt32 r2 = Ok cmdsize r3 /\
    recognized type = false.
Proof.
  intros H. unfold decodeSlice in H.
  apply bind_Exited in H as [H|(hdr & r0 & Hh & H)];
    [exfalso; exact (noExit_readHeader _ _ H)|].
  apply bind_Exited in H as [H|(d & r1 & Hd & H)].
  - unfold describeSlice in H.
    apply bind_Exited in H as [H|(st0 & r0' & Hl & H)].
    + unfold loadCommands in H.
      apply repeatM_Exited in H as (k & st & r1 & Hk & Hrep & Hb).
      destruct (loadCommand_Exited _ _ _ _ Hb)
        as (type & r2 & cmdsize & r3 & H1 & H2 & Hrec).
      exists hdr, r0, k, st, r1, type, r2, cmdsize, r3. auto 6.
    + exfalso. revert H.
      match goal with
      | |- ?m ?x = Exited -> False => apply (fun (H : noExit m) => H x)
      end.
      noexit.
  - exfalso. revert H. cbv zeta.
    match goal with
    | |- ?m ?x = Exited -> False => apply (fun (H : noExit m) => H x)
    end.
    noexit.
Qed.

Lemma exit_only_at_unrecognized_command_witness :
  decodeSlice 0 0 (Reader.mk sandwichFile 4 true) = Exited /\
  exists hdr r0 k st r1 type r2 cmdsize r3,
    readHeader 0 (Reader.mk sandwichFile 4 true) = Ok hdr r0 /\
    (k < Z.to_nat (hNcmds hdr))%nat /\
    repeatM k (loadCommand (hSystemBits hdr) 0) initLoadState r0
      = Ok st r1 /\
    getUInt32 r1 = Ok type r2 /\
    getUInt32 r2 = Ok cmdsize r3 /\
    recognized type = false.
Proof.
  assert (H : decodeSlice 0 0 (Reader.mk sandwichFile 4 true) = Exited)
    by (vm_compute; reflexivity).
  split; [exact H|].
  exact (exit_only_at_unrecognized_command 0 0
           (Reader.mk sandwichFile 4 true) H).
Defined.

(** ** Reads outside a buffer *)

Lemma noUndefined_ret {A} (a : A) : noUndefined (ret a).
Proof. intros r H. discriminate. Qed.

Lemma noUndefined_bind {A B} (m : M A) (k : A -> M B) :
  noUndefined m -> (forall a, noUndefined (k a)) -> noUndefined (bind m k).
Proof.
  intros Hm Hk r. unfold bind. specialize (Hm r).
  destruct (m r) as [a r'| | |]; try discriminate; [apply Hk | contradiction].
Qed.

Lemma noUndefined_checked (num : Z) : noUndefined (checked num).
Proof.
  intros r. unfold checked. destruct (Reader.getUInt num r) as [[v|] r'];
    discriminate.
Qed.

Lemma noUndefined_skipUInt32 : noUndefined skipUInt32.
Proof. intros r H. discriminate. Qed.

Lemma noUndefined_readBytes (max : Z) : noUndefined (readBytes max).
Proof. intros r. unfold readBytes, Reader.read. discriminate. Qed.

Lemma noUndefined_seek (p : Z) : noUndefined (seek p).
Proof. intros r H. discriminate. Qed.

Lemma noUndefined_setLittleEndian (le : bool) :
  noUndefined (setLittleEndian le).
Proof. intros r H. discriminate. Qed.

Lemma noUndefined_pos : noUndefined pos.
Proof. intros r H. discriminate. Qed.

Lemma noUndefined_exit {A} : noUndefined (@exit A).
Proof. intros r H. discriminate. Qed.

Lemma noUndefined_repeatM {T} (body : T -> M T) (n : nat) :
  (forall st, noUndefined (body st)) ->
  forall st, noUndefined (repeatM n body st).
Proof.
  intros Hb. induction n as [|n IH]; intros st; cbn [repeatM].
  - apply noUndefined_ret.
  - apply noUndefined_bind; auto.
Qed.

Create HintDb noundef.

#[local] Hint Resolve noUndefined_ret noUndefined_checked
  noUndefined_skipUInt32 noUndefined_readBytes noUndefined_seek
  noUndefined_setLittleEndian noUndefined_pos noUndefined_exit : noundef.

Ltac noundef :=
  repeat first
    [ solve [auto with noundef]
    | match goal with
      | |- noUndefined (repeatM _ _ _) => apply noUndefined_repeatM; intros
      | |- noUndefined (bind _ _) => apply noUndefined_bind; [|intros]
      | |- noUndefined (if ?b then _ else _) => destruct b
      end ].

Lemma noUndefined_getWord (bits : Z) : noUndefined (getWord bits).
Proof. unfold getWord, getUInt32, getUInt64. noundef. Qed.

#[local] Hint Resolve noUndefined_getWord : noundef.

Lemma noUndefined_readHeader (offset : Z) : noUndefined (readHeader offset).
Proof. unfold readHeader, getUInt32. noundef. Qed.

Lemma noUndefined_readSection (bits offset : Z) (st : LoadState) :
  noUndefined (readSection bits offset st).
Proof. unfold readSection, getUInt32. noundef. Qed.

#[local] Hint Resolve noUndefined_readHeader noUndefined_readSection
  : noundef.

Lemma noUndefined_loadCommand (bits offset : Z) (st : LoadState) :
  noUndefined (loadCommand bits offset st).
Proof.
  unfold loadCommand, readSegment, readDyldInfo, readSymtab, readDysymtab,
    readLinkedit, getUInt16, getUInt32, getUInt64.
  noundef.
Qed.

Lemma noUndefined_readSymbol (bits : Z) (acc : SymbolTable * Z) :
  noUndefined (readSymbol bits acc).
Proof. unfold readSymbol, getUChar, getUInt16, getUInt32. noundef. Qed.

Lemma noUndefined_readDynSymbol (acc : SymbolTable * Z) :
  noUndefined (readDynSymbol acc).
Proof. unfold readDynSymbol, getUInt32. noundef. Qed.

#[local] Hint Resolve noUndefined_loadCommand noUndefined_readSymbol
  noUndefined_readDynSymbol : noundef.

(** Reading the header, the commands and the two symbol tables of a slice
    goes through the reader only. *)
Lemma noUndefined_describeSlice (bits offset ncmds : Z) :
  noUndefined (describeSlice bits offset ncmds).
Proof.
  unfold describeSlice, loadCommands, readSymbolTable, readDynSymbolTable.
  noundef.
Qed.

Lemma noUndefined_fillSections (secs : list Section) :
  noUndefined (fillSections secs).
Proof. induction secs as [|s secs IH]; cbn [fillSections]; noundef. Qed.

Lemma defined_Undefined {A} (o : option A) (r : Reader.t) :
  defined o r = Undefined -> o = None.
Proof. unfold defined. destruct o; [discriminate | reflexivity]. Qed.

Lemma defined_Ok {A} (o : option A) (a : A) (r r' : Reader.t) :
  defined o r = Ok a r' -> o = Some a.
Proof.
  unfold defined. destruct o; [|discriminate]. intros H.
  injection H as <- _. reflexivity.
Qed.

(** Once a symbol table command is processed, a String Table section is
    registered: the loop sets [symnum] nowhere else. *)
Lemma addSection_keeps_string (s : Section) (st : LoadState) :
  (0 < symnum st -> getSection SectionType.String (lsSections st) <> None) ->
  0 < symnum (addSection s st) ->
  getSection SectionType.String (lsSections (addSection s st)) <> None.
Proof.
  intros Hst Hsym. cbn [addSection symnum lsSections] in *.
  rewrite getSection_app. specialize (Hst Hsym).
  destruct (getSection SectionType.String (lsSections st));
    [discriminate | contradiction].
Qed.

Lemma storeSection_keeps_string (offset : Z) (segname secname : string)
    (addr secsize secfileoff : Z) (st : LoadState) :
  (0 < symnum st -> getSection SectionType.String (lsSections st) <> None) ->
  0 < symnum (storeSection offset segname secname addr secsize
                secfileoff st) ->
  getSection SectionType.String
    (lsSections (storeSection offset segname secname addr secsize
                   secfileoff st)) <> None.
Proof.
  intros Hst. unfold storeSection.
  repeat match goal with
         | |- context [if ?b then _ else _] => destruct b
         end;
    try exact Hst; apply addSection_keeps_string; exact Hst.
Qed.

Lemma loadCommand_keeps_string (bits offset : Z) (st : LoadState) :
  (0 < symnum st -> getSection SectionType.String (lsSections st) <> None) ->
  establishes
    (fun st' => 0 < symnum st' ->
                getSection SectionType.String (lsSections st') <> None)
    (loadCommand bits offset st).
Proof.
  intros Hst. unfold loadCommand.
  do 2 (apply establishes_bind; intros).
  repeat match goal with
         | |- context [if ?b then _ else _] => destruct b
         end;
    unfold readSegment, readDyldInfo, readSymtab, readDysymtab, readLinkedit;
    repeat (apply establishes_bind; intros);
    try (apply establishes_ret; exact Hst).
  - apply (establishes_repeatM
             (fun st' => 0 < symnum st' ->
                getSection SectionType.String (lsSections st') <> None));
      [|exact Hst].
    intros st0 Hst0. unfold readSection.
    repeat (apply establishes_bind; intros).
    apply establishes_ret. apply storeSection_keeps_string. exact Hst0.
  - apply establishes_ret. intros _.
    cbn [addSection lsSections]. rewrite getSection_app.
    destruct (getSection SectionType.String (lsSections st));
      discriminate.
  - destruct (_ =? 0x26); [|destruct (_ =? 0x1D)]; apply establishes_ret;
      try exact Hst; apply addSection_keeps_string; exact Hst.
  - intros r st' r' H. discriminate.
Qed.

(** A slice with a symbol in its symbol table has a positive [symnum] and
    a String Table section. *)
Lemma describeSlice_string (bits offset ncmds : Z) (r r' : Reader.t)
    (st : LoadState) (symTable dynsymTable : SymbolTable) :
  describeSlice bits offset ncmds r = Ok (st, symTable, dynsymTable) r' ->
  symTable <> [] ->
  0 < symnum st /\
  getSection SectionType.String (lsSections st) <> None.
Proof.
  intros Hd Hne.
  destruct (describeSlice_Ok _ _ _ _ _ _ _ _ Hd)
    as (st0 & r0 & st1 & r1 & Hl & Hs & Hy).
  destruct (table_passes_counts _ _ _ _ _ _ _ _ _ _ Hs Hy)
    as (Hsym & _ & _ & _).
  assert (H0 : 0 < symnum st0).
  { destruct (0 <? symnum st0) eqn:E; [apply Z.ltb_lt; exact E|].
    unfold readSymbolTable in Hs. rewrite E in Hs.
    apply ret_Ok in Hs as [Hs _]. injection Hs as <- _. contradiction. }
  split; [lia|].
  assert (Hstr : getSection SectionType.String (lsSections st0) <> None).
  { unfold loadCommands in Hl.
    revert H0.
    apply (establishes_repeatM
             (fun st' => 0 < symnum st' ->
                getSection SectionType.String (lsSections st') <> None)
             (loadCommand bits offset)
             (fun s Hs' => loadCommand_keeps_string bits offset s Hs')
             _ _ (fun Hpos : 0 < symnum initLoadState =>
                    match Z.lt_irrefl _ Hpos with end)
             _ _ _ Hl). }
  apply readSymbolTable_size in Hs; [|exact H0]. subst st1.
  assert (H1 : getSection SectionType.String
                 (lsSections
                    (addSection
                       (newSection SectionType.Symbols "Symbol Table"
                          (symoff st0)
                          (wrap32 ((8 + wordBytes bits) * symnum st0))
                          (add32 offset (symoff st0))) st0)) <> None).
  { apply addSection_keeps_string; [intros _; exact Hstr | exact H0]. }
  destruct (0 <? indirsymnum
                   (addSection
                      (newSection SectionType.Symbols "Symbol Table"
                         (symoff st0)
                         (wrap32 ((8 + wordBytes bits) * symnum st0))
                         (add32 offset (symoff st0))) st0)) eqn:E.
  - apply Z.ltb_lt in E. apply readDynSymbolTable_size in Hy; [|exact E].
    subst st. apply addSection_keeps_string; [intros _; exact H1|].
    exact H0.
  - unfold readDynSymbolTable in Hy. rewrite E in Hy.
    apply ret_Ok in Hy as [Hy _]. injection Hy as _ <-. exact H1.
Qed.

(** The decoding of a slice reads outside a buffer in one case only, and
    always in that case: the header, the commands and both symbol tables
    have been read, and the symbol table has an entry whose string-table
    index is negative as an [int], that is, 2^31 or more. The reads of the
    header, of the commands and of the section contents never do so, and
    neither does the loop over the dynamic symbols, whose index is
    checked against both ends of the symbol table. *)
Theorem outside_read_iff_negative_string_index (offset size : Z)
    (r : Reader.t) :
  decodeSlice offset size r = Undefined <->
  exists hdr r0 st symTable dynsymTable r1 e,
    readHeader offset r = Ok hdr r0 /\
    describeSlice (hSystemBits hdr) offset (hNcmds hdr) r0
      = Ok (st, symTable, dynsymTable) r1 /\
    In e symTable /\ toInt32 (symIndex e) < 0.
Proof.
  split.
  - intros H. unfold decodeSlice in H.
    apply bind_Undefined in H as [H|(hdr & r0 & Hh & H)];
      [exfalso; exact (noUndefined_readHeader _ _ H)|].
    apply bind_Undefined in H as [H|([[st symTable] dynsymTable] & r1 & Hd & H)];
      [exfalso; exact (noUndefined_describeSlice _ _ _ _ H)|].
    cbn [fst snd] in H.
    apply bind_Undefined in H as [H|(secs & r2 & Hf & H)];
      [exfalso; exact (noUndefined_fillSections _ _ H)|].
    apply bind_Undefined in H as [H|(symTable' & r3 & Hm & H)].
    + apply defined_Undefined in H. unfold mergeStrings in H.
      destruct (0 <? symnum st); [|discriminate].
      destruct (getSection SectionType.String secs) as [strTable|];
        [|discriminate].
      apply resolveStrings_None_iff in H as (e & Hin & Hneg).
      exists hdr, r0, st, symTable, dynsymTable, r1, e. auto.
    + exfalso. apply defined_Ok in Hm.
      apply bind_Undefined in H as [H|(dy & r4 & _ & H)]; [|discriminate].
      apply defined_Undefined in H. unfold mergeDynSymbols in H.
      destruct ((0 <? indirsymnum st) && (0 <? symnum st)) eqn:E;
        [|discriminate].
      apply andb_true_iff in E as [_ E]. apply Z.ltb_lt in E.
      destruct (getSection SectionType.SymbolStubs secs) as [stubs|];
        [|discriminate].
      revert H. apply resolveDynSymbols_defined.
      rewrite (mergeStrings_length _ _ _ _ Hm).
      destruct (describeSlice_Ok _ _ _ _ _ _ _ _ Hd)
        as (st0 & r0' & st1 & r1' & _ & Hs & Hy).
      destruct (table_passes_counts _ _ _ _ _ _ _ _ _ _ Hs Hy)
        as (_ & _ & Hlen & _).
      exact (Hlen E).
  - intros (hdr & r0 & st & symTable & dynsymTable & r1 & e
            & Hh & Hd & Hin & Hneg).
    assert (Hne : symTable <> []) by (intros ->; contradiction).
    destruct (describeSlice_string _ _ _ _ _ _ _ _ Hd Hne) as [Hsym Hstr].
    destruct (fillSections_spec (lsSections st) r1) as (r2 & Hf & _).
    destruct (getSection SectionType.String (lsSections st))
      as [strTable|] eqn:Hg; [|contradiction].
    refine (negative_index_undefined offset size r r0 r1 r2 hdr st symTable
              dynsymTable _ _ e Hh Hd Hf Hsym _ Hin Hneg).
    rewrite getSection_map by reflexivity. rewrite Hg. reflexivity.
Qed.

(** ** The room the commands take *)

Lemma consumes_le {A} (n k : Z) (m : M A) :
  consumes n m -> k <= n -> consumes k m.
Proof.
  intros Hm Hk r v r' Hw H. destruct (Hm r v r' Hw H) as (Hd & Hp & Hw').
  split; [exact Hd|]. split; [lia | exact Hw'].
Qed.

Lemma consumes_ret {A} (a : A) : consumes 0 (ret a).
Proof.
  intros r v r' Hw H. apply ret_Ok in H as [_ <-].
  split; [reflexivity|]. split; [lia | exact Hw].
Qed.

Lemma consumes_pos : consumes 0 pos.
Proof.
  intros r v r' Hw H. unfold pos in H. injection H as _ <-.
  split; [reflexivity|]. split; [lia | exact Hw].
Qed.

Lemma consumes_exit {A} (n : Z) : consumes n (@exit A).
Proof. intros r v r' _ H. discriminate. Qed.

Lemma consumes_bind {A B} (a b : Z) (m : M A) (k : A -> M B) :
  consumes a m -> (forall v, consumes b (k v)) ->
  consumes (a + b) (bind m k).
Proof.
  intros Hm Hk r v r'' Hw H. apply bind_Ok in H as (x & r' & H1 & H2).
  destruct (Hm r x r' Hw H1) as (Hd & Hp & Hw').
  destruct (Hk x r' v r'' Hw' H2) as (Hd' & Hp' & Hw'').
  split; [congruence|]. split; [lia | exact Hw''].
Qed.

(** A read of the bytes that are left stays inside the file. *)
Lemma read_within (max : Z) (r : Reader.t) :
  within r ->
  Reader.pos r <= Reader.pos (snd (Reader.read max r)) /\
  within (snd (Reader.read max r)).
Proof.
  unfold within, Reader.read. cbn [snd Reader.pos Reader.dev]. intros Hw.
  pose proof (lenZ_nonneg (takeZ max (dropZ (Reader.pos r) (Reader.dev r)))).
  destruct (Z.le_gt_cases max 0) as [Hmax|Hmax].
  - rewrite takeZ_nonpos by exact Hmax. change (lenZ []) with 0. lia.
  - rewrite lenZ_takeZ, lenZ_dropZ by lia. lia.
Qed.

Lemma consumes_readBytes (max : Z) : consumes 0 (readBytes max).
Proof.
  intros r v r' Hw. unfold readBytes.
  pose proof (read_within max r Hw) as [Hp Hw'].
  destruct (Reader.read max r) as [buf r1] eqn:E. cbn [snd] in *.
  intros H. injection H as _ <-.
  split; [|split; [lia | exact Hw']].
  unfold Reader.read in E. injection E as _ <-. reflexivity.
Qed.

Lemma consumes_skipUInt32 : consumes 0 skipUInt32.
Proof.
  intros r v r' Hw. unfold skipUInt32, Reader.getUInt.
  pose proof (read_within 4 r Hw) as [Hp Hw'].
  destruct (Reader.read 4 r) as [buf r1] eqn:E. cbn [snd] in *.
  assert (Hd : Reader.dev r1 = Reader.dev r).
  { unfold Reader.read in E. injection E as _ <-. reflexivity. }
  destruct (lenZ buf <? 4); cbn [snd]; intros H; inversion H; subst;
    (split; [exact Hd|]; split; [lia | exact Hw']).
Qed.

(** A checked read that succeeds has found its bytes inside the file. *)
Lemma consumes_checked (num : Z) : 0 <= num -> consumes num (checked num).
Proof.
  intros Hn r v r' Hw H. pose proof H as H'.
  apply checked_Ok in H as [_ ->]; [|exact Hn].
  cbn [Reader.dev Reader.pos]. split; [reflexivity|]. split; [lia|].
  unfold within in *. cbn [Reader.dev Reader.pos].
  rewrite checked_spec in H' by exact Hn.
  destruct (lenZ (dropZ (Reader.pos r) (Reader.dev r)) <? num) eqn:E;
    [discriminate|].
  apply Z.ltb_ge in E. rewrite lenZ_dropZ in E by lia. lia.
Qed.

Lemma consumes_repeatM {T} (k : Z) (body : T -> M T) (n : nat) :
  0 <= k -> (forall st, consumes k (body st)) ->
  forall st, consumes (Z.of_nat n * k) (repeatM n body st).
Proof.
  intros Hk Hb. induction n as [|n IH]; intros st; cbn [repeatM].
  - apply consumes_ret.
  - apply (consumes_le (k + Z.of_nat n * k)); [|lia].
    apply consumes_bind; [apply Hb | exact IH].
Qed.

Lemma consumes_repeatM_0 {T} (body : T -> M T) (n : nat) :
  (forall st, consumes 0 (body st)) ->
  forall st, consumes 0 (repeatM n body st).
Proof.
  intros Hb st. apply (consumes_le (Z.of_nat n * 0)); [|lia].
  apply consumes_repeatM; [lia | exact Hb].
Qed.

(** [stay] proves that a composition of reads does not move backwards. *)
Ltac stay :=
  lazymatch goal with
  | |- consumes 0 (bind _ _) =>
      apply (consumes_bind 0 0); [stay | intros; stay]
  | |- consumes 0 (checked ?n) =>
      apply (consumes_le n 0); [apply consumes_checked; lia | lia]
  | |- consumes 0 (ret _) => apply consumes_ret
  | |- consumes 0 (readBytes _) => apply consumes_readBytes
  | |- consumes 0 skipUInt32 => apply consumes_skipUInt32
  | |- consumes 0 pos => apply consumes_pos
  | |- consumes 0 exit => apply consumes_exit
  | |- consumes 0 (if ?b then _ else _) => destruct b; stay
  end.

Lemma consumes_readSection (bits offset : Z) (st : LoadState) :
  consumes 0 (readSection bits offset st).
Proof. unfold readSection, getWord, getUInt32, getUInt64. stay. Qed.

(** Every turn of the command loop takes 8 bytes of the file at least,
    the tag and the size of the command. *)
Lemma consumes_loadCommand (bits offset : Z) (st : LoadState) :
  consumes 8 (loadCommand bits offset st).
Proof.
  unfold loadCommand, getUInt32.
  apply (consumes_bind 4 4); [apply consumes_checked; lia | intros type].
  apply (consumes_bind 4 0); [apply consumes_checked; lia | intros cmdsize].
  repeat match goal with
         | |- consumes 0 (if ?b then _ else _) => destruct b
         end;
    unfold readSegment, readDyldInfo, readSymtab, readDysymtab, readLinkedit,
      getWord, getUInt16, getUInt32, getUInt64;
    try stay.
  repeat (apply (consumes_bind 0 0); [stay | intros]).
  apply consumes_repeatM_0. intros st0. apply consumes_readSection.
Qed.

(** A slice is decoded only if the file has room, behind the 28 bytes of
    the header at the base offset, for 8 bytes for each of the commands
    that the header announces: the command loop runs [ncmds] times, reads
    the tag and the size of a command with a check each time, and never
    moves backwards. *)
Theorem commands_fit_in_file (offset size : Z) (r r' : Reader.t)
    (bo : BinaryObject) :
  0 <= offset ->
  decodeSlice offset size r = Ok bo r' ->
  offset + 28
  + 8 * uintAt 4 (snd (classifyMagic (uintAt 4 true (Reader.dev r) offset)))
          (Reader.dev r) (offset + 16)
  <= lenZ (Reader.dev r).
Proof.
  intros Ho H.
  destruct (decodeSlice_Ok _ _ _ _ _ H)
    as (hdr & r0 & st & symTable & dynsymTable & r1 & secs & symTable'
        & dynsymTable' & Hh & Hd & _).
  assert (Hlen : offset + 28 <= lenZ (Reader.dev r)).
  { destruct (Z.le_gt_cases (offset + 28) (lenZ (Reader.dev r)))
      as [L|L]; [exact L|].
    apply (readHeader_Failed_iff offset r Ho) in L.
    rewrite L in Hh. discriminate. }
  destruct (readHeader_at offset r Ho Hlen) as (r0' & Hh' & Hdev & _ & Hpos).
  rewrite Hh in Hh'. injection Hh' as _ <-.
  pose proof (readHeader_Ok _ _ _ _ Hh) as Hk. cbv zeta in Hk.
  destruct Hk as (_ & _ & _ & _ & Hn & _).
  destruct (describeSlice_Ok _ _ _ _ _ _ _ _ Hd)
    as (st0 & r2 & _ & _ & Hl & _).
  unfold loadCommands in Hl.
  assert (Hw : within r0).
  { unfold within. rewrite Hdev, Hpos.
    destruct (_ =? 64); lia. }
  destruct (consumes_repeatM 8 _ _ ltac:(lia)
              (consumes_loadCommand _ offset) _ _ _ _ Hw Hl)
    as (Hd2 & Hp2 & Hw2).
  unfold within in Hw2. rewrite Hd2, Hdev in Hw2.
  assert (0 <= Reader.pos r0 - (offset + 28))
    by (rewrite Hpos; destruct (_ =? 64); lia).
  lia.
Qed.

Lemma commands_fit_in_file_witness :
  exists bo r',
    decodeSlice 0 0 (Reader.mk stubsFile 4 true) = Ok bo r' /\
    0 + 28
    + 8 * uintAt 4 (snd (classifyMagic (uintAt 4 true stubsFile 0)))
            stubsFile (0 + 16)
    <= lenZ stubsFile.
Proof.
  eassert (Hdec : decodeSlice 0 0 (Reader.mk stubsFile 4 true) = Ok _ _)
    by (vm_compute; reflexivity).
  do 2 eexists. split; [exact Hdec|].
  exact (commands_fit_in_file 0 0 (Reader.mk stubsFile 4 true) _ _
           ltac:(lia) Hdec).
Defined.
